(** * The real-time connection core of the charity backend

    A shallow embedding of [src/websocket_manager.py] (class
    [ConnectionManager]) and of the [websocket_endpoint] coroutine of
    [src/main.py], with the properties of the connection registry, the
    broadcast fan-out and the per-connection session handler.

    Modelling conventions.
    - A [WebSocket] object is hashed by identity, so a connection is a
      natural-number handle.
    - [active_connections : Dict[str, Set[WebSocket]]] is a [gmap] from
      strings to [gset]s; [connection_count] is a Python [int], hence [Z].
    - Every call that performs I/O receives the outcome of that I/O
      ([None] when it returns, [Some e] when it raises the exception [e]).
    - Only [logger.error] calls are kept in the effect trace; the
      [logger.info] calls are dropped. Time stamps of messages are not
      modelled. *)

From stdpp Require Import gmap strings list fin_maps fin_sets.

Open Scope Z_scope.

(** ** Exceptions, messages and effects *)

(** The subclasses of [Exception] that the modelled code can meet. Task
    cancellation, which is not an [Exception], is not modelled. *)
Inductive exn : Type :=
  | WebSocketDisconnect
  | JSONDecodeError
  | AttributeError
  | RuntimeError
  | DatabaseError
  | RecursionError
  | OtherValueError.   (* a [ValueError] that is not a [JSONDecodeError] *)

Inductive result (A : Type) : Type :=
  | Ok (a : A)
  | Raise (e : exn).
Arguments Ok {A} a.
Arguments Raise {A} e.

(** The ["type"] field of the outbound messages. *)
Inductive message : Type :=
  | connection_established
  | pong
  | stats_update
  | new_donation
  | donation_verified
  | donation_unverified.

Abbreviation WebSocket := nat.

Inductive effect : Type :=
  | Accept (websocket : WebSocket)
  | SendJson (websocket : WebSocket) (m : message) (r : option exn)
  | Close (websocket : WebSocket) (code : Z) (reason : string)
  | LogError
  | PrintError.

#[global] Instance exn_eq_dec : EqDecision exn.
Proof. solve_decision. Defined.
#[global] Instance message_eq_dec : EqDecision message.
Proof. solve_decision. Defined.
#[global] Instance effect_eq_dec : EqDecision effect.
Proof. solve_decision. Defined.

(** ** The connection manager *)

Record ConnectionManager : Type := mkManager {
  active_connections : gmap string (gset nat);
  connection_count : Z
}.

(** [__init__] *)
Definition init : ConnectionManager :=
  {| active_connections := ∅; connection_count := 0 |}.

(** A computation of the manager: it reads and writes the manager, appends
    to the effect trace, and returns or raises. *)
Definition M (A : Type) : Type :=
  ConnectionManager → result A * ConnectionManager * list effect.

Definition ret {A} (a : A) : M A := λ mgr, (Ok a, mgr, []).

Definition raise {A} (e : exn) : M A := λ mgr, (Raise e, mgr, []).

Definition bind {A B} (c : M A) (k : A → M B) : M B := λ mgr,
  match c mgr with
  | (Ok a, mgr1, t1) =>
      match k a mgr1 with (r, mgr2, t2) => (r, mgr2, t1 ++ t2) end
  | (Raise e, mgr1, t1) => (Raise e, mgr1, t1)
  end.

(** [try: c  except E as e: h e], where [catches] tells which exceptions
    the clause [E] matches; the others propagate. *)
Definition try_except {A} (c : M A) (catches : exn → bool) (h : exn → M A) :
  M A := λ mgr,
  match c mgr with
  | (Ok a, mgr1, t1) => (Ok a, mgr1, t1)
  | (Raise e, mgr1, t1) =>
      if catches e
      then match h e mgr1 with (r, mgr2, t2) => (r, mgr2, t1 ++ t2) end
      else (Raise e, mgr1, t1)
  end.

(** [except Exception] *)
Definition Exception : exn → bool := λ _, true.

Definition emit (e : effect) : M unit := λ mgr, (Ok (), mgr, [e]).

Definition modify (f : ConnectionManager → ConnectionManager) : M unit :=
  λ mgr, (Ok (), f mgr, []).

#[global] Instance M_ret : MRet M := @ret.
#[global] Instance M_bind : MBind M := λ A B k c, bind c k.

Definition outcome {A} (x : result A * ConnectionManager * list effect) :
  result A := x.1.1.
Definition final {A} (x : result A * ConnectionManager * list effect) :
  ConnectionManager := x.1.2.
Definition trace {A} (x : result A * ConnectionManager * list effect) :
  list effect := x.2.

(** [await websocket.accept()] *)
Definition accept (r : option exn) (websocket : WebSocket) : M unit :=
  emit (Accept websocket) ;;
  match r with None => ret () | Some e => raise e end.

(** [await websocket.send_json(message)] *)
Definition send_json (r : option exn) (websocket : WebSocket) (m : message) :
  M unit :=
  emit (SendJson websocket m r) ;;
  match r with None => ret () | Some e => raise e end.

(** [ConnectionManager.send_personal_message] *)
Definition send_personal_message (r : option exn) (m : message)
    (websocket : WebSocket) : M unit :=
  try_except (send_json r websocket m) Exception (λ _, emit LogError).

(** Lines 27 to 31 of [ConnectionManager.connect]: the registry update. *)
Definition register (websocket : WebSocket) (admin_username : string)
    (mgr : ConnectionManager) : ConnectionManager :=
  let d :=
    match active_connections mgr !! admin_username with
    | Some _ => active_connections mgr
    | None => <[admin_username := ∅]> (active_connections mgr)
    end in
  {| active_connections :=
       <[admin_username := (d !!! admin_username) ∪ {[websocket]}]> d;
     connection_count := connection_count mgr + 1 |}.

(** [ConnectionManager.connect] *)
Definition connect (accepted sent : option exn) (websocket : WebSocket)
    (admin_username : string) : M unit :=
  accept accepted websocket ;;
  modify (register websocket admin_username) ;;
  send_personal_message sent connection_established websocket.

(** [ConnectionManager.disconnect] *)
Definition disconnect (websocket : WebSocket) (admin_username : string)
    (mgr : ConnectionManager) : ConnectionManager :=
  match active_connections mgr !! admin_username with
  | Some connections =>
      let connections' := connections ∖ {[websocket]} in
      {| active_connections :=
           if decide (connections' = ∅)
           then delete admin_username (active_connections mgr)
           else <[admin_username := connections']> (active_connections mgr);
         connection_count := connection_count mgr - 1 |}
  | None => mgr
  end.

(** [ConnectionManager.get_connection_count] *)
Definition get_connection_count (mgr : ConnectionManager) : Z :=
  connection_count mgr.

(** [ConnectionManager.get_connected_admins] *)
Definition get_connected_admins (mgr : ConnectionManager) : list string :=
  (map_to_list (active_connections mgr)).*1.

(** ** Observations on a registry *)

(** The pair (identity, connection) is currently registered. *)
Definition registered (mgr : ConnectionManager) (admin_username : string)
    (websocket : WebSocket) : Prop :=
  ∃ connections, active_connections mgr !! admin_username = Some connections
                 ∧ websocket ∈ connections.

Definition registeredb (mgr : ConnectionManager) (admin_username : string)
    (websocket : WebSocket) : bool :=
  match active_connections mgr !! admin_username with
  | Some connections => bool_decide (websocket ∈ connections)
  | None => false
  end.

(** The number of registered pairs: the sum of the sizes of the sets. *)
Definition sizes (m : gmap string (gset nat)) : nat :=
  sum_list_with (λ kv, size kv.2) (map_to_list m).

Definition pair_count (mgr : ConnectionManager) : nat :=
  sizes (active_connections mgr).

(** No identity is a key of the mapping with an empty set. *)
Definition no_empty_set (mgr : ConnectionManager) : Prop :=
  ∀ admin_username connections,
    active_connections mgr !! admin_username = Some connections →
    connections ≠ ∅.

(** ** Sequences of registry operations *)

Inductive op : Type :=
  | Register (admin_username : string) (websocket : WebSocket)
  | Unregister (admin_username : string) (websocket : WebSocket).

(** [Register] is a call of [connect] whose [accept] returns; [Unregister]
    is a call of [disconnect]. *)
Definition apply_op (mgr : ConnectionManager) (o : op) : ConnectionManager :=
  match o with
  | Register a w => final (connect None None w a mgr)
  | Unregister a w => disconnect w a mgr
  end.

Definition run (ops : list op) (mgr : ConnectionManager) : ConnectionManager :=
  foldl apply_op mgr ops.

(** The caller contract on one operation: a handle is registered only
    when it is not yet in the identity's set, and unregistered only when
    it is in the identity's set or the identity has no entry. *)
Definition respects_op (mgr : ConnectionManager) (o : op) : bool :=
  match o with
  | Register a w => negb (registeredb mgr a w)
  | Unregister a w =>
      match active_connections mgr !! a with
      | Some connections => bool_decide (w ∈ connections)
      | None => true
      end
  end.

Fixpoint respects (mgr : ConnectionManager) (ops : list op) : bool :=
  match ops with
  | [] => true
  | o :: ops' => respects_op mgr o && respects (apply_op mgr o) ops'
  end.

(** ** Broadcast *)

(** [exclude_admin and admin_username == exclude_admin]: the first
    conjunct is the truth value of an optional string, false for [None]
    and for the empty string. *)
Definition excluded (exclude_admin : option string) (admin_username : string) :
  bool :=
  match exclude_admin with
  | Some x => bool_decide (x ≠ "") && bool_decide (admin_username = x)
  | None => false
  end.

(** The inner loop of [broadcast] over the copy of one identity's set. *)
Fixpoint broadcast_connections (send : WebSocket → option exn) (m : message)
    (admin_username : string) (connections : list WebSocket)
    (disconnected : list (WebSocket * string)) :
  M (list (WebSocket * string)) :=
  match connections with
  | [] => mret disconnected
  | connection :: rest =>
      disconnected' ←
        try_except
          (send_json (send connection) connection m ;; mret disconnected)
          Exception
          (λ _, emit LogError ;;
                mret (disconnected ++ [(connection, admin_username)]));
      broadcast_connections send m admin_username rest disconnected'
  end.

(** The outer loop of [broadcast] over the items of the mapping. *)
Fixpoint broadcast_items (send : WebSocket → option exn) (m : message)
    (exclude_admin : option string) (items : list (string * gset nat))
    (disconnected : list (WebSocket * string)) :
  M (list (WebSocket * string)) :=
  match items with
  | [] => mret disconnected
  | (admin_username, connections) :: rest =>
      if excluded exclude_admin admin_username
      then broadcast_items send m exclude_admin rest disconnected
      else
        disconnected' ←
          broadcast_connections send m admin_username (elements connections)
            disconnected;
        broadcast_items send m exclude_admin rest disconnected'
  end.

(** The last loop of [broadcast]: [disconnect] every dead connection. *)
Definition clean_up (disconnected : list (WebSocket * string))
    (mgr : ConnectionManager) : ConnectionManager :=
  foldl (λ mgr' ca, disconnect ca.1 ca.2 mgr') mgr disconnected.

(** [ConnectionManager.broadcast], when no other task touches the registry
    during the pass: [send] gives the outcome of [send_json] on each
    connection. *)
Definition broadcast (send : WebSocket → option exn) (m : message)
    (exclude_admin : option string) : M unit := λ mgr,
  (disconnected ←
     broadcast_items send m exclude_admin
       (map_to_list (active_connections mgr)) [];
   modify (clean_up disconnected)) mgr.

(** The list [disconnected] after the inner loop over one identity, and
    at the end of the pass. *)
Definition dead_of (send : WebSocket → option exn) (a : string)
    (cs : list WebSocket) : list (WebSocket * string) :=
  c ← cs; if send c is Some _ then [(c, a)] else [].

Definition dead (send : WebSocket → option exn)
    (exclude_admin : option string) (items : list (string * gset nat)) :
  list (WebSocket * string) :=
  kv ← items;
  if excluded exclude_admin kv.1 then [] else dead_of send kv.1 (elements kv.2).

(** The effects of the inner loop over one identity, and of the pass. *)
Definition sends_of (send : WebSocket → option exn) (m : message)
    (cs : list WebSocket) : list effect :=
  c ← cs; SendJson c m (send c) :: if send c is Some _ then [LogError] else [].

Definition sends (send : WebSocket → option exn) (m : message)
    (exclude_admin : option string) (items : list (string * gset nat)) :
  list effect :=
  kv ← items;
  if excluded exclude_admin kv.1 then [] else sends_of send m (elements kv.2).

(** The number of times the message [m] was delivered to a connection:
    the calls of [send_json] on it that returned. *)
Definition deliveries (websocket : WebSocket) (m : message) (t : list effect) :
  nat :=
  length (filter (λ e, e = SendJson websocket m None) t).

(** A delivery of [m] to a connection was attempted. *)
Definition attempted (websocket : WebSocket) (m : message) (t : list effect) :
  Prop :=
  ∃ r, SendJson websocket m r ∈ t.

(** ** Broadcast with other tasks running at its suspension points

    [await connection.send_json(message)] suspends the broadcasting task.
    [env connection] lists the registry operations that other sessions
    perform while the send to [connection] is suspended: [Register] for
    the registry update of a [connect], [Unregister] for a [disconnect].
    The outer loop runs on the live mapping: the iterator of [items()]
    remembers the size of the dictionary at its creation and its
    position, and raises [RuntimeError] at the next step when the size
    has changed. When keys were both deleted and added so that the size
    is the same, what the iterator yields depends on the layout of the
    dictionary's entry table, which a finite map does not keep; no
    property below rests on such a run. *)

Definition interfere (l : list op) (mgr : ConnectionManager) :
  ConnectionManager :=
  foldl apply_op mgr l.

Fixpoint live_connections (send : WebSocket → option exn)
    (env : WebSocket → list op) (m : message)
    (admin_username : string) (connections : list WebSocket)
    (disconnected : list (WebSocket * string)) :
  M (list (WebSocket * string)) :=
  match connections with
  | [] => mret disconnected
  | connection :: rest =>
      disconnected' ←
        try_except
          (emit (SendJson connection m (send connection)) ;;
           modify (interfere (env connection)) ;;
           match send connection with
           | None => mret disconnected
           | Some e => raise e
           end)
          Exception
          (λ _, emit LogError ;;
                mret (disconnected ++ [(connection, admin_username)]));
      live_connections send env m admin_username rest disconnected'
  end.

(** [n] entries remain to be visited: the position is [used - n]. *)
Fixpoint live_items (send : WebSocket → option exn)
    (env : WebSocket → list op) (m : message)
    (exclude_admin : option string) (used n : nat)
    (disconnected : list (WebSocket * string)) :
  M (list (WebSocket * string)) := λ mgr,
  let items := map_to_list (active_connections mgr) in
  if decide (length items = used) then
    match items !! (used - n)%nat, n with
    | Some (admin_username, connections), S n' =>
        if excluded exclude_admin admin_username
        then live_items send env m exclude_admin used n' disconnected mgr
        else
          (disconnected' ←
             live_connections send env m admin_username
               (elements connections) disconnected;
           live_items send env m exclude_admin used n' disconnected') mgr
    | _, _ => ret disconnected mgr
    end
  else raise RuntimeError mgr.

(** No other task runs during the sends. *)
Definition quiet : WebSocket → list op := λ _, [].

Definition broadcast_live (send : WebSocket → option exn)
    (env : WebSocket → list op) (m : message)
    (exclude_admin : option string) : M unit := λ mgr,
  let used := length (map_to_list (active_connections mgr)) in
  (disconnected ← live_items send env m exclude_admin used used [];
   modify (clean_up disconnected)) mgr.

(** ** The session handler

    The text of an inbound frame is represented by what [json.loads]
    makes of it: [Ok] of a JSON object with the value of its ["type"] key
    ([None] when the key is absent or is not a string), [Ok] of any other
    JSON value (number, string, list, [null]), or [Raise] of the
    exception of the parser. A text that is not JSON makes it raise
    [JSONDecodeError]; a text nested too deep makes it raise
    [RecursionError], and an integer literal beyond the digit limit a
    plain [ValueError]. *)

Inductive json : Type :=
  | JObject (type : option string)
  | JOther.

(** One step of [await websocket.receive_text()]: a text frame, together
    with the outcomes of the send and of the statistics query that its
    handling may perform, or an exception. *)
Inductive inbound : Type :=
  | Text (data : result json) (sent queried : option exn)
  | ReceiveRaises (e : exn).

Inductive status : Type :=
  | Rejected   (* closed during the handshake *)
  | Active     (* suspended in [receive_text] *)
  | Closed.    (* the coroutine has returned *)

(** The outcomes of the handshake: [verify_token(token)], the row of the
    administrator ([Some is_active], [None] when there is no row, or the
    exception of the query), [accept] and the send of the acknowledgment. *)
Record handshake : Type := mkHandshake {
  token_subject : option string;
  admin_row : result (option bool);
  accepted : option exn;
  acknowledged : option exn
}.

(** [json.loads(data)] *)
Definition json_loads (data : result json) : M json :=
  match data with
  | Ok j => mret j
  | Raise e => raise e
  end.

(** [message.get("type")]: only a [dict] has the method [get]. *)
Definition get_type (j : json) : M (option string) :=
  match j with
  | JObject t => mret t
  | JOther => raise AttributeError
  end.

(** The database queries of the [request_stats] branch. [r] is the outcome
    of the two counting queries. The query of the total amount is never
    sent: [func.cast] is given the builtin [float] where it expects a
    column type, and building the expression raises [AttributeError]. *)
Definition query_stats (r : option exn) : M unit :=
  match r with
  | Some e => raise e
  | None => raise AttributeError
  end.

(** [await websocket.close(code, reason)]; a failure of [close] itself is
    not modelled. *)
Definition close (websocket : WebSocket) (code : Z) (reason : string) :
  M unit :=
  emit (Close websocket code reason).

(** [except json.JSONDecodeError] *)
Definition is_JSONDecodeError (e : exn) : bool :=
  if e is JSONDecodeError then true else false.

(** [except WebSocketDisconnect] *)
Definition is_WebSocketDisconnect (e : exn) : bool :=
  if e is WebSocketDisconnect then true else false.

(** The body of the receive loop after [receive_text] has returned. The
    source evaluates [message.get("type")] in the [if] and again in the
    [elif]; both give the same value, so it is bound once. In the
    [request_stats] branch the queries and the send are inside
    [try: ... finally: db.close()]. *)
Definition handle_text (websocket : WebSocket) (data : result json)
    (sent queried : option exn) : M unit :=
  try_except
    (j ← json_loads data;
     t ← get_type j;
     if bool_decide (t = Some "ping") then
       send_json sent websocket pong
     else if bool_decide (t = Some "request_stats") then
       query_stats queried ;;
       send_personal_message sent stats_update websocket
     else mret ())
    is_JSONDecodeError
    (λ _, mret ()).

(** [while True: ...] over the frames that arrive; when they are
    exhausted the coroutine is suspended in [receive_text]. *)
Fixpoint receive_loop (websocket : WebSocket) (frames : list inbound) :
  M status :=
  match frames with
  | [] => mret Active
  | ReceiveRaises e :: _ => raise e
  | Text data sent queried :: rest =>
      handle_text websocket data sent queried ;;
      receive_loop websocket rest
  end.

(** The row lookup, inside [try: ... finally: db.close()]. *)
Definition lookup_admin (row : result (option bool)) : M (option bool) :=
  match row with Ok r => mret r | Raise e => raise e end.

(** [websocket_endpoint] *)
Definition websocket_endpoint (websocket : WebSocket) (h : handshake)
    (frames : list inbound) : M status :=
  try_except
    (match token_subject h with
     | None | Some "" =>
         close websocket 1008 "Invalid authentication token" ;;
         mret Rejected
     | Some admin_username =>
         row ← lookup_admin (admin_row h);
         if row is Some true then
           connect (accepted h) (acknowledged h) websocket admin_username ;;
           try_except (receive_loop websocket frames)
             is_WebSocketDisconnect
             (λ _, modify (disconnect websocket admin_username) ;;
                   mret Closed)
         else
           close websocket 1008 "Admin not found or inactive" ;;
           mret Rejected
     end)
    Exception
    (λ _, emit PrintError ;;
          close websocket 1008 "Authentication failed" ;;
          mret Closed).

(** ** The typed broadcasts *)

(** [ConnectionManager.broadcast_new_donation] *)
Definition broadcast_new_donation (send : WebSocket → option exn) : M unit :=
  broadcast send new_donation None.

(** [ConnectionManager.broadcast_donation_verified] *)
Definition broadcast_donation_verified (send : WebSocket → option exn)
    (verified : bool) : M unit :=
  broadcast send (if verified then donation_verified else donation_unverified)
    None.

(** [ConnectionManager.broadcast_stats_update] *)
Definition broadcast_stats_update (send : WebSocket → option exn) : M unit :=
  broadcast send stats_update None.

(** The calls of [send_json] in a trace. *)
Definition is_send_json (e : effect) : bool :=
  if e is SendJson _ _ _ then true else false.

Definition send_count (t : list effect) : nat :=
  length (filter (λ e, is_send_json e = true) t).

(** ** Observations on a session *)

(** The handshake reaches [ws_manager.connect]: the token has a non-empty
    subject and the administrator's row exists and is active. *)
Definition authenticated (h : handshake) : bool :=
  match token_subject h, admin_row h with
  | Some (String _ _), Ok (Some true) => true
  | _, _ => false
  end.

(** The handshake reaches the receive loop: [accept] returns as well. *)
Definition established (h : handshake) : bool :=
  authenticated h && bool_decide (accepted h = None).

(** A frame whose handling returns: a text rejected with
    [JSONDecodeError], an object of another type than ["ping"] and
    ["request_stats"], a ping whose [pong] is sent. *)
Definition answered (f : inbound) : bool :=
  match f with
  | Text (Raise e) _ _ => is_JSONDecodeError e
  | Text (Ok JOther) _ _ => false
  | Text (Ok (JObject t)) sent queried =>
      if bool_decide (t = Some "ping") then bool_decide (sent = None)
      else if bool_decide (t = Some "request_stats") then false
      else true
  | ReceiveRaises _ => false
  end.

(** An effect of a session on its own connection, or a log line. *)
Definition own (websocket : WebSocket) (e : effect) : Prop :=
  match e with
  | Accept w | SendJson w _ _ | Close w _ _ => w = websocket
  | LogError | PrintError => True
  end.

(** ** File names ([src/file_utils.py])

    A Python [str] is the list of its code points. What Python decides
    from the Unicode database for a code point above the ASCII range is a
    parameter: [unicode_alnum] for [str.isalnum]. *)

Definition of_string (s : string) : list N :=
  Ascii.N_of_ascii <$> String.list_ascii_of_string s.

(** The code points of ['/'], ['\'] and ['.']. *)
Definition slash : N := 47%N.
Definition backslash : N := 92%N.
Definition dot : N := 46%N.

(** [c.isalnum()] for one character: digits and letters in the ASCII
    range. *)
Definition isalnum (unicode_alnum : N → bool) (c : N) : bool :=
  if (c <? 128)%N then
    (((48 <=? c) && (c <=? 57)) || (((65 <=? c) && (c <=? 90))
     || ((97 <=? c) && (c <=? 122))))%N
  else unicode_alnum c.

(** [c.isalnum() or c in '.-_'] *)
Definition kept (unicode_alnum : N → bool) (c : N) : bool :=
  isalnum unicode_alnum c || bool_decide (c ∈ of_string ".-_").

(** [os.path.basename] of [posixpath]: what follows the last ['/']. *)
Definition basename (p : list N) : list N :=
  foldl (λ acc c, if bool_decide (c = slash) then [] else acc ++ [c]) [] p.

(** [sanitize_filename] *)
Definition sanitize_filename (unicode_alnum : N → bool) (filename : list N) :
  list N :=
  let filename1 := basename filename in
  let filename2 := filter (λ c, kept unicode_alnum c = true) filename1 in
  if bool_decide (filename2 = []) then of_string "unnamed_file.jpg"
  else if bool_decide (dot ∉ filename2) then filename2 ++ of_string ".jpg"
  else filename2.

(** ** The validators of a donation ([src/schemas.py])

    [unicode_space] is what [str.isspace] answers for a code point above
    the ASCII range. *)

Inductive validation (A : Type) : Type :=
  | Valid (a : A)
  | ValueError (msg : string).
Arguments Valid {A} a.
Arguments ValueError {A} msg.

(** [c.isspace()] for one character: in the ASCII range, the characters
    9 to 13 and 28 to 32. *)
Definition isspace (unicode_space : N → bool) (c : N) : bool :=
  if (c <? 128)%N then
    (((9 <=? c) && (c <=? 13)) || ((28 <=? c) && (c <=? 32)))%N
  else unicode_space c.

(** [v.lstrip()] and [v.strip()] *)
Fixpoint lstrip (unicode_space : N → bool) (v : list N) : list N :=
  match v with
  | [] => []
  | c :: v' => if isspace unicode_space c then lstrip unicode_space v' else v
  end.

Definition strip (unicode_space : N → bool) (v : list N) : list N :=
  reverse (lstrip unicode_space (reverse (lstrip unicode_space v))).

(** The character class [[a-zA-Z0-9_-]]. *)
Definition reference_char (c : N) : bool :=
  (((48 <=? c) && (c <=? 57)) || (((65 <=? c) && (c <=? 90))
   || (((97 <=? c) && (c <=? 122)) || ((c =? 95) || (c =? 45)))))%N.

(** [re.match(r'^[...]+$', v)] for a character class that does not hold the
    newline: one or more characters of the class up to the end of the
    string, where [$] also matches just before a newline that ends the
    string. *)
Definition match_class_plus (class : N → bool) (v : list N) : bool :=
  let w := if bool_decide (last v = Some 10%N) then take (length v - 1) v
           else v in
  bool_decide (w ≠ []) && forallb class w.

(** [DonationSubmissionCreate.validate_name] *)
Definition validate_name (unicode_space : N → bool) (v : list N) :
  validation (list N) :=
  if bool_decide (strip unicode_space v = []) then
    ValueError "Donor name is required"
  else if bool_decide (length v < 2)%nat then
    ValueError "Donor name must be at least 2 characters"
  else if bool_decide (100 < length v)%nat then
    ValueError "Donor name must be less than 100 characters"
  else Valid (strip unicode_space v).

(** [DonationSubmissionCreate.validate_transaction_reference] *)
Definition validate_transaction_reference (unicode_space : N → bool)
    (v : option (list N)) : validation (option (list N)) :=
  match v with
  | None => Valid None
  | Some v =>
      if bool_decide (strip unicode_space v = []) then Valid None
      else if bool_decide (length v < 3)%nat then
        ValueError "Transaction reference must be at least 3 characters"
      else if bool_decide (50 < length v)%nat then
        ValueError "Transaction reference must be less than 50 characters"
      else if negb (match_class_plus reference_char v) then
        ValueError "Transaction reference can only contain letters, numbers, hyphens, and underscores"
      else Valid (Some (strip unicode_space v))
  end.

(** ** Verifying a submission ([verify_submission] of [src/main.py])

    The table [donation_submissions] is a finite map from the primary key
    to the row; [username] is what [verify_token] returned for the bearer
    token, and [now] is [datetime.utcnow()]. A failure of the database is
    not modelled. *)





(** * Properties *)

Example run_two_tabs :
  let mgr := run [Register "alice" 1%nat; Register "alice" 2%nat;
                  Register "bob" 3%nat; Unregister "alice" 1%nat] init in
  get_connection_count mgr = 2 ∧ pair_count mgr = 2%nat
  ∧ get_connected_admins mgr = ["alice"; "bob"].
Proof. vm_compute. done. Qed.

(** ** The registry *)

Section registry.
Implicit Types (mgr : ConnectionManager) (m : gmap string (gset nat)).
Implicit Types (a b : string) (w c : WebSocket) (s : gset nat).

Lemma sizes_empty : sizes ∅ = 0%nat.
Proof. unfold sizes. by rewrite map_to_list_empty. Qed.

Lemma sizes_insert_fresh m a s :
  m !! a = None → sizes (<[a:=s]> m) = (size s + sizes m)%nat.
Proof.
  intros Hm. unfold sizes. by rewrite (map_to_list_insert m a s Hm).
Qed.

Lemma sizes_delete m a s :
  m !! a = Some s → sizes m = (size s + sizes (delete a m))%nat.
Proof.
  intros Hm. unfold sizes.
  by rewrite <-(map_to_list_delete m a s Hm).
Qed.

Lemma sizes_insert m a s s' :
  m !! a = Some s → (sizes (<[a:=s']> m) + size s = size s' + sizes m)%nat.
Proof.
  intros Hm. rewrite <-(insert_delete_eq m a s').
  rewrite sizes_insert_fresh by apply lookup_delete_eq.
  rewrite (sizes_delete m a s Hm). lia.
Qed.

Lemma register_active w a mgr :
  active_connections (register w a mgr)
  = <[a := default ∅ (active_connections mgr !! a) ∪ {[w]}]>
      (active_connections mgr).
Proof.
  unfold register. cbn. destruct (active_connections mgr !! a) as [s|] eqn:Hm.
  - by rewrite lookup_total_alt, Hm.
  - rewrite lookup_total_alt, lookup_insert_eq. cbn.
    by rewrite insert_insert_eq.
Qed.

Lemma register_count w a mgr :
  connection_count (register w a mgr) = connection_count mgr + 1.
Proof. done. Qed.

Lemma connect_final sent w a mgr :
  final (connect None sent w a mgr) = register w a mgr.
Proof. by destruct sent. Qed.

Lemma connect_refused e sent w a mgr :
  connect (Some e) sent w a mgr = (Raise e, mgr, [Accept w]).
Proof. done. Qed.

Lemma registered_spec mgr a w :
  registeredb mgr a w = true ↔ registered mgr a w.
Proof.
  unfold registeredb, registered.
  destruct (active_connections mgr !! a) as [s|].
  - rewrite bool_decide_eq_true. naive_solver.
  - naive_solver.
Qed.

Lemma registered_register mgr a w b c :
  registered (register w a mgr) b c
  ↔ registered mgr b c ∨ (b = a ∧ c = w).
Proof.
  unfold registered. rewrite register_active.
  destruct (decide (b = a)) as [->|Hne].
  - rewrite lookup_insert_eq.
    destruct (active_connections mgr !! a) as [s|]; cbn; split.
    + intros (s' & [= <-] & Hin). set_solver.
    + intros [(s' & [= <-] & Hin)|[_ ->]]; eexists; split; eauto; set_solver.
    + intros (s' & [= <-] & Hin). set_solver.
    + intros [(s' & [=] & _)|[_ ->]]. eexists; split; eauto; set_solver.
  - rewrite lookup_insert_ne by done. naive_solver.
Qed.

Lemma disconnect_lookup w a mgr b :
  active_connections (disconnect w a mgr) !! b
  = if decide (b = a) then
      s ← active_connections mgr !! a;
      if decide (s ∖ {[w]} = ∅) then None else Some (s ∖ {[w]})
    else active_connections mgr !! b.
Proof.
  unfold disconnect. destruct (active_connections mgr !! a) as [s|] eqn:Hm; cbn.
  - destruct (decide (s ∖ {[w]} = ∅)); case_decide; subst;
      by rewrite ?lookup_delete_eq, ?lookup_delete_ne, ?lookup_insert_eq,
           ?lookup_insert_ne.
  - case_decide; by subst.
Qed.

Lemma registered_disconnect mgr a w b c :
  registered (disconnect w a mgr) b c
  ↔ registered mgr b c ∧ ¬ (b = a ∧ c = w).
Proof.
  unfold registered. rewrite disconnect_lookup. case_decide as Hb.
  - subst b. destruct (active_connections mgr !! a) as [s|]; cbn.
    + case_decide as He; split.
      * intros (? & [=] & _).
      * intros [(s' & [= <-] & Hin) Hn]. exfalso. apply Hn. split; [done|].
        destruct (decide (c = w)); [done|]. set_solver.
      * intros (s' & [= <-] & Hin). split; [exists s|]; set_solver.
      * intros [(s' & [= <-] & Hin) Hn]. eexists; split; [done|].
        apply elem_of_difference. split; [done|].
        rewrite elem_of_singleton. naive_solver.
    + naive_solver.
  - naive_solver.
Qed.

Lemma disconnect_absent_identity w a mgr :
  active_connections mgr !! a = None → disconnect w a mgr = mgr.
Proof. unfold disconnect. by intros ->. Qed.

Lemma disconnect_count w a mgr :
  connection_count (disconnect w a mgr)
  = match active_connections mgr !! a with
    | Some _ => connection_count mgr - 1
    | None => connection_count mgr
    end.
Proof. unfold disconnect. by destruct (active_connections mgr !! a). Qed.

Lemma no_empty_set_register w a mgr :
  no_empty_set mgr → no_empty_set (register w a mgr).
Proof.
  intros Hne b s. rewrite register_active.
  destruct (decide (b = a)) as [->|].
  - rewrite lookup_insert_eq. intros [= <-]. set_solver.
  - rewrite lookup_insert_ne by done. apply Hne.
Qed.

Lemma no_empty_set_disconnect w a mgr :
  no_empty_set mgr → no_empty_set (disconnect w a mgr).
Proof.
  intros Hne b s. rewrite disconnect_lookup. case_decide.
  - destruct (active_connections mgr !! a) as [s0|]; cbn; [|done].
    case_decide; [done|]. by intros [= <-].
  - apply Hne.
Qed.

Lemma no_empty_set_apply_op mgr o :
  no_empty_set mgr → no_empty_set (apply_op mgr o).
Proof.
  destruct o as [a w|a w]; cbn.
  - rewrite connect_final. apply no_empty_set_register.
  - apply no_empty_set_disconnect.
Qed.

Lemma pair_count_register w a mgr :
  ¬ registered mgr a w →
  pair_count (register w a mgr) = S (pair_count mgr).
Proof.
  intros Hn. unfold pair_count. rewrite register_active.
  destruct (active_connections mgr !! a) as [s|] eqn:Hm; cbn.
  - assert (w ∉ s) by (intros ?; apply Hn; by exists s).
    pose proof (sizes_insert _ _ _ (s ∪ {[w]}) Hm) as Hs.
    rewrite size_union, size_singleton in Hs by set_solver. lia.
  - rewrite sizes_insert_fresh by done.
    by rewrite (left_id_L ∅ (∪)), size_singleton.
Qed.

Lemma pair_count_disconnect w a mgr :
  registered mgr a w →
  S (pair_count (disconnect w a mgr)) = pair_count mgr.
Proof.
  intros (s & Hm & Hin). unfold pair_count, disconnect. rewrite Hm. cbn.
  assert (size s = S (size (s ∖ {[w]}))) as Hsz.
  { rewrite size_difference, size_singleton by set_solver.
    assert (size s ≠ 0%nat); [|lia].
    apply size_non_empty_iff. set_solver. }
  case_decide as He.
  - rewrite (sizes_delete _ _ _ Hm), Hsz, He, size_empty. lia.
  - pose proof (sizes_insert _ _ _ (s ∖ {[w]}) Hm). lia.
Qed.
End registry.

Lemma no_empty_set_init : no_empty_set init.
Proof. intros a s. cbn. by rewrite lookup_empty. Qed.

Lemma no_empty_set_run ops mgr :
  no_empty_set mgr → no_empty_set (run ops mgr).
Proof.
  revert mgr. induction ops as [|o ops IH]; intros mgr Hne; [done|].
  cbn. apply IH. by apply no_empty_set_apply_op.
Qed.

Lemma count_apply_op mgr o :
  respects_op mgr o = true →
  connection_count mgr = Z.of_nat (pair_count mgr) →
  connection_count (apply_op mgr o) = Z.of_nat (pair_count (apply_op mgr o)).
Proof.
  destruct o as [a w|a w]; cbn; intros Hr Hc.
  - rewrite connect_final, register_count, pair_count_register, Hc; [lia|].
    rewrite <-registered_spec. by destruct (registeredb mgr a w).
  - destruct (active_connections mgr !! a) as [s|] eqn:Hm.
    + apply bool_decide_eq_true in Hr.
      assert (registered mgr a w) as Hreg by (by exists s).
      rewrite disconnect_count, Hm, Hc.
      rewrite <-(pair_count_disconnect w a mgr Hreg). lia.
    + by rewrite disconnect_absent_identity.
Qed.

Lemma count_run ops mgr :
  respects mgr ops = true →
  connection_count mgr = Z.of_nat (pair_count mgr) →
  connection_count (run ops mgr) = Z.of_nat (pair_count (run ops mgr)).
Proof.
  revert mgr. induction ops as [|o ops IH]; intros mgr Hr Hc; [done|].
  cbn in Hr. apply andb_true_iff in Hr as [Ho Hr].
  cbn. apply IH; [done|]. by apply count_apply_op.
Qed.

(** C1 (as amended). After every sequence of [connect] and [disconnect]
    calls from the empty registry, no identity is a key of the mapping
    with an empty set of connections; and when the sequence respects the
    caller contract (a handle is registered only while it is not in the
    identity's set, and unregistered only while it is in the identity's
    set or the identity has no entry), [get_connection_count] equals the
    number of registered (identity, connection) pairs. *)
Theorem registry_invariant (ops : list op) :
  no_empty_set (run ops init)
  ∧ (respects init ops = true →
     get_connection_count (run ops init)
     = Z.of_nat (pair_count (run ops init))).
Proof.
  split.
  - apply no_empty_set_run, no_empty_set_init.
  - intros Hr. by apply count_run.
Qed.

Lemma registry_invariant_witness :
  let ops := [Register "alice" 1%nat; Register "alice" 2%nat;
              Register "bob" 3%nat; Unregister "alice" 1%nat;
              Unregister "carol" 4%nat] in
  respects init ops = true
  ∧ get_connection_count (run ops init) = Z.of_nat (pair_count (run ops init)).
Proof.
  split; [vm_compute; reflexivity|].
  apply (proj2 (registry_invariant _)). vm_compute. reflexivity.
Defined.

(** C1 as stated fails: registering one handle twice, or unregistering a
    handle that was already unregistered while the identity keeps another
    connection, leaves the count different from the number of pairs. *)
Lemma count_differs_from_pairs :
  (let mgr := run [Register "alice" 1%nat; Register "alice" 1%nat] init in
   get_connection_count mgr = 2 ∧ pair_count mgr = 1%nat)
  ∧ (let mgr := run [Register "alice" 1%nat; Register "alice" 2%nat;
                     Unregister "alice" 1%nat; Unregister "alice" 1%nat] init in
     get_connection_count mgr = 0 ∧ pair_count mgr = 1%nat).
Proof. vm_compute. done. Qed.

(** C2 (the code at the failing input). With two connections of one
    identity registered and the first already unregistered, a second
    [disconnect] of the first removes nothing from the mapping and yet
    decrements the count, which falls below the number of registered
    pairs. *)
Theorem disconnect_absent_connection_decrements :
  let mgr := run [Register "alice" 1%nat; Register "alice" 2%nat;
                  Unregister "alice" 1%nat] init in
  let mgr' := disconnect 1%nat "alice" mgr in
  active_connections mgr' = active_connections mgr
  ∧ registeredb mgr "alice" 1%nat = false
  ∧ get_connection_count mgr = 1
  ∧ get_connection_count mgr' = 0
  ∧ pair_count mgr' = 1%nat.
Proof. vm_compute. done. Qed.

(** ** Broadcast without interference *)

Section broadcast.
Variable send : WebSocket → option exn.
Variable m : message.
Variable exclude_admin : option string.

Lemma broadcast_connections_spec a cs d mgr :
  broadcast_connections send m a cs d mgr
  = (Ok (d ++ dead_of send a cs), mgr, sends_of send m cs).
Proof.
  revert d. induction cs as [|c cs IH]; intros d.
  - cbn. by rewrite app_nil_r.
  - cbn [broadcast_connections]. unfold mbind, M_bind, bind at 1.
    unfold try_except, send_json, mbind, M_bind, bind, emit, mret, M_ret,
      ret, raise.
    unfold dead_of, sends_of. rewrite !bind_cons.
    destruct (send c) as [e|] eqn:Hs; cbn.
    + rewrite IH. unfold dead_of, sends_of.
      by rewrite <-app_assoc.
    + by rewrite IH.
Qed.

Lemma broadcast_items_spec items d mgr :
  broadcast_items send m exclude_admin items d mgr
  = (Ok (d ++ dead send exclude_admin items), mgr,
     sends send m exclude_admin items).
Proof.
  revert d. induction items as [|[a s] items IH]; intros d.
  - cbn. by rewrite app_nil_r.
  - cbn [broadcast_items]. unfold dead, sends. rewrite !bind_cons. cbn [fst snd].
    destruct (excluded exclude_admin a).
    + by rewrite IH.
    + unfold mbind at 1, M_bind, bind.
      rewrite broadcast_connections_spec, IH.
      by rewrite <-app_assoc.
Qed.

Lemma broadcast_spec mgr :
  let items := map_to_list (active_connections mgr) in
  broadcast send m exclude_admin mgr
  = (Ok (), clean_up (dead send exclude_admin items) mgr,
     sends send m exclude_admin items).
Proof.
  cbn. unfold broadcast, mbind, M_bind, bind.
  rewrite broadcast_items_spec. cbn. by rewrite app_nil_r.
Qed.

Lemma elem_of_dead_of a cs c b :
  (c, b) ∈ dead_of send a cs ↔ b = a ∧ c ∈ cs ∧ is_Some (send c).
Proof.
  unfold dead_of. rewrite list_elem_of_bind. split.
  - intros (c' & Hin & Hc'). destruct (send c') as [e|] eqn:Hs.
    + apply list_elem_of_singleton in Hin as [= -> ->]. rewrite Hs. eauto.
    + by apply not_elem_of_nil in Hin.
  - intros (-> & Hc & [e He]). exists c. rewrite He. split; [|done].
    by apply list_elem_of_singleton.
Qed.

Lemma elem_of_dead items c a :
  (c, a) ∈ dead send exclude_admin items
  ↔ ∃ s, (a, s) ∈ items ∧ c ∈ s ∧ excluded exclude_admin a = false
         ∧ is_Some (send c).
Proof.
  unfold dead. rewrite list_elem_of_bind. split.
  - intros ([b s] & Hin & Hitem). cbn in Hin.
    destruct (excluded exclude_admin b) eqn:Hex.
    + by apply not_elem_of_nil in Hin.
    + apply elem_of_dead_of in Hin as (-> & Hc & Hs).
      exists s. by rewrite <-elem_of_elements.
  - intros (s & Hitem & Hc & Hex & Hs). exists (a, s). split; [|done].
    cbn. rewrite Hex. apply elem_of_dead_of. by rewrite elem_of_elements.
Qed.

Lemma elem_of_sends_of cs c r :
  SendJson c m r ∈ sends_of send m cs ↔ c ∈ cs ∧ r = send c.
Proof.
  unfold sends_of. rewrite list_elem_of_bind. split.
  - intros (c' & Hin & Hc'). apply elem_of_cons in Hin as [[= -> ->]|Hin]; [done|].
    destruct (send c'); [|by apply not_elem_of_nil in Hin].
    by apply list_elem_of_singleton in Hin.
  - intros [Hc ->]. exists c. split; [left|done].
Qed.

Lemma elem_of_sends items c r :
  SendJson c m r ∈ sends send m exclude_admin items
  ↔ ∃ a s, (a, s) ∈ items ∧ c ∈ s ∧ excluded exclude_admin a = false
           ∧ r = send c.
Proof.
  unfold sends. rewrite list_elem_of_bind. split.
  - intros ([a s] & Hin & Hitem). cbn in Hin.
    destruct (excluded exclude_admin a) eqn:Hex.
    + by apply not_elem_of_nil in Hin.
    + apply elem_of_sends_of in Hin as [Hc ->].
      exists a, s. by rewrite <-elem_of_elements.
  - intros (a & s & Hitem & Hc & Hex & ->). exists (a, s). split; [|done].
    cbn. rewrite Hex. apply elem_of_sends_of. by rewrite elem_of_elements.
Qed.

Lemma deliveries_app c t1 t2 :
  deliveries c m (t1 ++ t2) = (deliveries c m t1 + deliveries c m t2)%nat.
Proof. unfold deliveries. by rewrite filter_app, length_app. Qed.

Lemma deliveries_absent c t :
  SendJson c m None ∉ t → deliveries c m t = 0%nat.
Proof.
  intros Hn. unfold deliveries.
  induction t as [|e t IH]; [done|].
  rewrite filter_cons. case_decide as He.
  - subst e. exfalso. apply Hn. left.
  - apply IH. intros ?. apply Hn. by right.
Qed.

Lemma deliveries_sends_of cs c :
  NoDup cs → c ∈ cs → send c = None →
  deliveries c m (sends_of send m cs) = 1%nat.
Proof.
  intros Hnd Hc Hs. induction Hnd as [|c' cs Hni Hnd IH].
  - by apply not_elem_of_nil in Hc.
  - unfold sends_of. rewrite bind_cons. fold (sends_of send m cs).
    rewrite deliveries_app.
    apply elem_of_cons in Hc as [<-|Hc].
    + rewrite Hs. rewrite (deliveries_absent c (sends_of send m cs)).
      * unfold deliveries. rewrite filter_cons. by case_decide.
      * rewrite elem_of_sends_of. naive_solver.
    + rewrite IH by done.
      rewrite deliveries_absent; [done|].
      intros Hin. apply elem_of_cons in Hin as [[= <-]|Hin]; [done|].
      destruct (send c'); [|by apply not_elem_of_nil in Hin].
      by apply list_elem_of_singleton in Hin.
Qed.

Lemma deliveries_sends items a s c :
  NoDup items.*1 → (a, s) ∈ items → c ∈ s →
  (∀ b t, (b, t) ∈ items → c ∈ t → b = a) →
  excluded exclude_admin a = false → send c = None →
  deliveries c m (sends send m exclude_admin items) = 1%nat.
Proof.
  intros Hnd Hitem Hc Hown Hex Hs.
  induction items as [|[b t] items IH]; [by apply not_elem_of_nil in Hitem|].
  cbn in Hnd. apply NoDup_cons in Hnd as [Hb Hnd].
  unfold sends. rewrite bind_cons. fold (sends send m exclude_admin items).
  rewrite deliveries_app. cbn [fst snd].
  apply elem_of_cons in Hitem as [[= <- <-]|Hitem].
  - rewrite Hex, deliveries_sends_of; [|apply NoDup_elements|by apply elem_of_elements|done].
    rewrite deliveries_absent; [done|].
    rewrite elem_of_sends. intros (b & t & Hbt & Hct & _).
    apply Hb. assert (b = a) as -> by (eapply Hown; [by right|done]).
    apply list_elem_of_fmap. by exists (a, t).
  - rewrite IH; [| done | done | intros b' t' ? ?; eapply Hown; [by right|done]].
    rewrite deliveries_absent; [done|].
    destruct (excluded exclude_admin b); [apply not_elem_of_nil|].
    rewrite elem_of_sends_of, elem_of_elements. intros [Hct _].
    apply Hb. assert (b = a) as -> by (eapply Hown; [left|done]).
    apply list_elem_of_fmap. by exists (a, s).
Qed.

End broadcast.

Lemma registered_clean_up l mgr b c :
  registered (clean_up l mgr) b c ↔ registered mgr b c ∧ (c, b) ∉ l.
Proof.
  unfold clean_up. revert mgr.
  induction l as [|[w a] l IH]; intros mgr; cbn.
  - split; [|naive_solver]. intros ?. split; [done|apply not_elem_of_nil].
  - rewrite IH, registered_disconnect, not_elem_of_cons. naive_solver.
Qed.

Lemma clean_up_count l mgr :
  connection_count (clean_up l mgr) ≤ connection_count mgr.
Proof.
  unfold clean_up. revert mgr. induction l as [|[w a] l IH]; intros mgr; cbn.
  - lia.
  - etrans; [apply IH|]. rewrite disconnect_count.
    destruct (active_connections mgr !! a); lia.
Qed.

Lemma clean_up_lookup l mgr a s' :
  active_connections (clean_up l mgr) !! a = Some s' →
  ∃ s, active_connections mgr !! a = Some s ∧ s' ⊆ s.
Proof.
  unfold clean_up. revert mgr s'.
  induction l as [|[w b] l IH]; intros mgr s'; cbn.
  - intros ?. by exists s'.
  - intros Hl. apply IH in Hl as (s1 & Hl & Hsub).
    rewrite disconnect_lookup in Hl. case_decide.
    + subst b. destruct (active_connections mgr !! a) as [s|]; cbn in Hl; [|done].
      case_decide; [done|]. injection Hl as <-. exists s. set_solver.
    + by exists s1.
Qed.

Lemma registered_items mgr a c :
  registered mgr a c
  ↔ ∃ s, (a, s) ∈ map_to_list (active_connections mgr) ∧ c ∈ s.
Proof.
  unfold registered. by setoid_rewrite elem_of_map_to_list.
Qed.

(** C3. [broadcast] returns without raising; every connection owned by one
    identity, which is not the excluded one, and whose send does not fail
    is delivered the message exactly once, whatever the other sends do;
    and every connection of a non-excluded identity whose send fails is
    no longer registered when [broadcast] returns. *)
Theorem broadcast_delivers (send : WebSocket → option exn) (m : message)
    (exclude_admin : option string) (mgr : ConnectionManager) :
  let r := broadcast send m exclude_admin mgr in
  outcome r = Ok ()
  ∧ (∀ a c, registered mgr a c → (∀ b, registered mgr b c → b = a) →
       excluded exclude_admin a = false → send c = None →
       deliveries c m (trace r) = 1%nat)
  ∧ (∀ a c, registered mgr a c → excluded exclude_admin a = false →
       is_Some (send c) → ¬ registered (final r) a c).
Proof.
  cbn. rewrite broadcast_spec. cbn. split; [done|]. split.
  - intros a c Hreg Hown Hex Hs.
    apply registered_items in Hreg as (s & Hitem & Hc).
    apply (deliveries_sends send m exclude_admin _ a s c);
      [apply NoDup_fst_map_to_list|done|done| |done|done].
    intros b t Hbt Hct. apply Hown, registered_items. eauto.
  - intros a c Hreg Hex Hs. rewrite registered_clean_up.
    intros [_ Hn]. apply Hn, elem_of_dead.
    apply registered_items in Hreg as (s & Hitem & Hc). by exists s.
Qed.

Lemma not_registered_init a c : ¬ registered init a c.
Proof. intros (s & Hs & _). cbn in Hs. by rewrite lookup_empty in Hs. Qed.

Lemma broadcast_delivers_witness :
  let mgr := run [Register "alice" 1%nat; Register "bob" 3%nat] init in
  let send := λ c : WebSocket, if decide (c = 3%nat) then Some RuntimeError else None in
  let r := broadcast send new_donation None mgr in
  registered mgr "alice" 1%nat
  ∧ registered mgr "bob" 3%nat
  ∧ deliveries 1%nat new_donation (trace r) = 1%nat
  ∧ ¬ registered (final r) "bob" 3%nat.
Proof.
  intros mgr send r.
  assert (registered mgr "alice" 1%nat) as Halice
    by (apply registered_spec; vm_compute; reflexivity).
  assert (registered mgr "bob" 3%nat) as Hbob
    by (apply registered_spec; vm_compute; reflexivity).
  assert (∀ b, registered mgr b 1%nat → b = "alice") as Hown.
  { intros b. unfold mgr, run. cbn [foldl apply_op].
    rewrite !connect_final, !registered_register.
    intros [[H|[-> _]]|[_ [=]]]; [|reflexivity].
    by apply not_registered_init in H. }
  destruct (broadcast_delivers send new_donation None mgr) as (_ & Hone & Hgone).
  split; [exact Halice|]. split; [exact Hbob|]. split.
  - apply (Hone "alice" 1%nat Halice Hown); reflexivity.
  - apply (Hgone "bob" 3%nat Hbob); [reflexivity|]. vm_compute. eauto.
Defined.

(** C5 (as amended). [broadcast] attempts a delivery to exactly the
    connections registered under an identity other than [exclude_admin];
    an [exclude_admin] that is absent or the empty string excludes no
    identity, so then every registered connection has delivery attempted. *)
Theorem broadcast_attempts (send : WebSocket → option exn) (m : message)
    (exclude_admin : option string) (mgr : ConnectionManager) (c : WebSocket) :
  attempted c m (trace (broadcast send m exclude_admin mgr))
  ↔ ∃ a, registered mgr a c ∧ ¬ (exclude_admin = Some a ∧ a ≠ "").
Proof.
  rewrite broadcast_spec. cbn. unfold attempted. split.
  - intros (r & Hin). apply elem_of_sends in Hin as (a & s & Hitem & Hc & Hex & _).
    exists a. split; [apply registered_items; eauto|].
    intros [-> Hne]. unfold excluded in Hex.
    by rewrite !bool_decide_eq_true_2 in Hex.
  - intros (a & Hreg & Hex). exists (send c).
    apply registered_items in Hreg as (s & Hitem & Hc).
    apply elem_of_sends. exists a, s. repeat split; try done.
    unfold excluded. destruct exclude_admin as [x|]; [|done].
    apply andb_false_iff.
    destruct (decide (x = "")) as [->|Hx].
    + left. by apply bool_decide_eq_false_2; intros ?.
    + right. apply bool_decide_eq_false_2. intros ->. by apply Hex.
Qed.

Lemma broadcast_attempts_witness :
  let mgr := run [Register "alice" 1%nat; Register "bob" 2%nat] init in
  let t := trace (broadcast (λ _, None) new_donation (Some "alice") mgr) in
  registered mgr "bob" 2%nat ∧ attempted 2%nat new_donation t.
Proof.
  intros mgr t.
  assert (registered mgr "bob" 2%nat) as Hbob
    by (apply registered_spec; vm_compute; reflexivity).
  split; [exact Hbob|].
  apply (proj2 (broadcast_attempts (λ _, None) new_donation (Some "alice") mgr 2%nat)).
  exists "bob". split; [exact Hbob|]. intros [[=] _].
Defined.

(** C5 as stated fails for the empty string: an identity [""] excluded by
    [exclude_admin = ""] still receives the message. *)
Lemma broadcast_empty_exclude_delivers :
  let mgr := run [Register "" 1%nat] init in
  registeredb mgr "" 1%nat = true
  ∧ trace (broadcast (λ _, None) new_donation (Some "") mgr)
    = [SendJson 1%nat new_donation None].
Proof. vm_compute. done. Qed.

(** C10. When [broadcast] returns, every identity of the mapping was an
    identity of the mapping before the call and its set of connections is
    included in the set it had; the connection count has not grown. *)
Theorem broadcast_shrinks (send : WebSocket → option exn) (m : message)
    (exclude_admin : option string) (mgr : ConnectionManager) :
  let mgr' := final (broadcast send m exclude_admin mgr) in
  (∀ a s', active_connections mgr' !! a = Some s' →
     ∃ s, active_connections mgr !! a = Some s ∧ s' ⊆ s)
  ∧ (∀ a c, registered mgr' a c → registered mgr a c)
  ∧ get_connection_count mgr' ≤ get_connection_count mgr.
Proof.
  cbn. rewrite broadcast_spec. cbn. split; [|split].
  - intros a s'. apply clean_up_lookup.
  - intros a c. rewrite registered_clean_up. by intros [? _].
  - apply clean_up_count.
Qed.

Lemma broadcast_shrinks_witness :
  let mgr := run [Register "alice" 1%nat; Register "alice" 2%nat;
                  Register "bob" 3%nat] init in
  let send := λ c : WebSocket, if decide (c = 2%nat) then Some RuntimeError else None in
  let mgr' := final (broadcast send new_donation None mgr) in
  active_connections mgr' !! "alice" = Some {[1%nat]}
  ∧ (∃ s, active_connections mgr !! "alice" = Some s ∧ {[1%nat]} ⊆ s)
  ∧ registered mgr "bob" 3%nat.
Proof.
  intros mgr send mgr'.
  destruct (broadcast_shrinks send new_donation None mgr) as (Hsub & Hreg & _).
  assert (active_connections mgr' !! "alice" = Some {[1%nat]}) as Hl
    by (vm_compute; reflexivity).
  split; [exact Hl|]. split.
  - exact (Hsub "alice" {[1%nat]} Hl).
  - apply (Hreg "bob" 3%nat). apply registered_spec. vm_compute. reflexivity.
Defined.

(** ** Broadcast on the live mapping *)

Section live.
Variable send : WebSocket → option exn.
Variable m : message.
Variable exclude_admin : option string.

Lemma live_connections_quiet a cs d mgr :
  live_connections send quiet m a cs d mgr
  = broadcast_connections send m a cs d mgr.
Proof.
  revert d. induction cs as [|c cs IH]; intros d; [done|].
  cbn [live_connections broadcast_connections].
  unfold mbind at 1 4, M_bind, bind at 1 4.
  unfold try_except, send_json, mbind, M_bind, bind, emit, modify, mret,
    M_ret, ret, raise, quiet. cbn.
  destruct (send c); cbn; by rewrite IH.
Qed.

Lemma live_items_quiet mgr n d :
  let items := map_to_list (active_connections mgr) in
  (n ≤ length items)%nat →
  live_items send quiet m exclude_admin (length items) n d mgr
  = broadcast_items send m exclude_admin
      (drop (length items - n) items) d mgr.
Proof.
  cbn. set (items := map_to_list (active_connections mgr)). revert d.
  induction n as [|n IH]; intros d Hn.
  - cbn [live_items]. fold items. rewrite decide_True by done.
    rewrite Nat.sub_0_r, drop_all.
    by destruct (items !! length items) as [[??]|].
  - cbn [live_items]. fold items. rewrite decide_True by done.
    destruct (lookup_lt_is_Some_2 items (length items - S n)) as [[a s] Has];
      [lia|].
    rewrite Has, (drop_S _ _ _ Has).
    replace (S (length items - S n)) with (length items - n)%nat by lia.
    cbn [broadcast_items]. destruct (excluded exclude_admin a).
    + apply IH. lia.
    + unfold mbind, M_bind, bind.
      rewrite live_connections_quiet, broadcast_connections_spec.
      rewrite IH by lia. done.
Qed.

(** Without interference, the loop on the live mapping is the loop on
    the items taken at the start of the pass. *)
Lemma broadcast_live_quiet mgr :
  broadcast_live send quiet m exclude_admin mgr
  = broadcast send m exclude_admin mgr.
Proof.
  unfold broadcast_live, broadcast, mbind, M_bind, bind.
  rewrite live_items_quiet by done. by rewrite Nat.sub_diag.
Qed.
End live.

(** C8 (the code at the failing input). The outer loop of [broadcast] runs
    on the live mapping; only the set of the identity being visited is
    copied. With alice and bob connected: when another session of bob
    registers while the send to alice's connection is suspended, the
    message also goes to that new connection, which was not registered
    when the pass began; and when a session of a new identity registers
    at that point, the iterator of the mapping raises [RuntimeError],
    which [broadcast] lets through to its caller. *)
Theorem broadcast_iterates_live_mapping :
  let mgr := run [Register "alice" 1%nat; Register "bob" 2%nat] init in
  let bob_joins := λ c : WebSocket, if decide (c = 1%nat) then [Register "bob" 3%nat] else [] in
  let carol_joins := λ c : WebSocket, if decide (c = 1%nat) then [Register "carol" 3%nat] else [] in
  registeredb mgr "bob" 3%nat = false
  ∧ trace (broadcast_live (λ _, None) bob_joins new_donation None mgr)
    = [SendJson 1%nat new_donation None; SendJson 2%nat new_donation None;
       SendJson 3%nat new_donation None]
  ∧ outcome (broadcast_live (λ _, None) carol_joins new_donation None mgr)
    = Raise RuntimeError.
Proof. vm_compute. done. Qed.

(** The same happens when another session disconnects during the send:
    with bob's only connection unregistered while the send to alice's
    connection is suspended, the key of bob is deleted and the iterator
    raises [RuntimeError], which [broadcast] lets through. *)
Example broadcast_live_disconnect_raises :
  let mgr := run [Register "alice" 1%nat; Register "bob" 2%nat] init in
  let bob_leaves := λ c : WebSocket, if decide (c = 1%nat) then [Unregister "bob" 2%nat] else [] in
  broadcast_live (λ _, None) bob_leaves new_donation None mgr
  = (Raise RuntimeError, run [Register "alice" 1%nat] init,
     [SendJson 1%nat new_donation None]).
Proof. vm_compute. done. Qed.

(** ** Unicast *)

(** C9. [send_personal_message] returns without raising whatever
    exception the send raises, and leaves the manager, hence the mapping
    and the count, as it was; a failed send is only logged. *)
Theorem send_personal_message_never_raises (r : option exn) (m : message)
    (websocket : WebSocket) (mgr : ConnectionManager) :
  let x := send_personal_message r m websocket mgr in
  outcome x = Ok ()
  ∧ final x = mgr
  ∧ trace x = SendJson websocket m r :: if r is Some _ then [LogError] else [].
Proof. by destruct r. Qed.

Lemma connect_spec sent websocket a mgr :
  connect None sent websocket a mgr
  = (Ok (), register websocket a mgr,
     Accept websocket :: SendJson websocket connection_established sent
     :: if sent is Some _ then [LogError] else []).
Proof. by destruct sent. Qed.

(** ** The session handler *)

(** A ping is answered by one [pong] on the same connection. *)
Lemma ping_answered websocket sent queried mgr :
  let x := handle_text websocket (Ok (JObject (Some "ping"))) sent queried mgr in
  final x = mgr ∧ trace x = [SendJson websocket pong sent]
  ∧ (sent = None → outcome x = Ok ()).
Proof. by destruct sent as [[]|]. Qed.

Lemma handle_text_malformed websocket sent queried mgr :
  handle_text websocket (Raise JSONDecodeError) sent queried mgr = (Ok (), mgr, []).
Proof. done. Qed.

Lemma receive_loop_skip websocket sent queried pre post mgr :
  receive_loop websocket (pre ++ Text (Raise JSONDecodeError) sent queried :: post) mgr
  = receive_loop websocket (pre ++ post) mgr.
Proof.
  revert mgr. induction pre as [|f pre IH]; intros mgr.
  - cbn [app receive_loop]. unfold mbind, M_bind, bind.
    rewrite handle_text_malformed.
    by destruct (receive_loop websocket post mgr) as [[??]?].
  - destruct f as [data s q|e]; [|done].
    cbn [app receive_loop]. unfold mbind, M_bind, bind.
    destruct (handle_text websocket data s q mgr) as [[[[]|e] mgr1] t1]; [|done].
    by rewrite IH.
Qed.

(** X26. In the receive loop a frame that [json.loads] rejects with
    [JSONDecodeError] has no effect at all: its handling returns normally
    with the manager unchanged and an empty trace, and the loop, hence
    the whole session, goes on exactly as if the frame had not arrived. *)
Theorem malformed_frame_ignored (websocket : WebSocket)
    (sent queried : option exn) :
  (∀ mgr, handle_text websocket (Raise JSONDecodeError) sent queried mgr = (Ok (), mgr, []))
  ∧ (∀ pre post mgr,
       receive_loop websocket (pre ++ Text (Raise JSONDecodeError) sent queried :: post) mgr
       = receive_loop websocket (pre ++ post) mgr)
  ∧ (∀ h pre post mgr,
       websocket_endpoint websocket h (pre ++ Text (Raise JSONDecodeError) sent queried :: post) mgr
       = websocket_endpoint websocket h (pre ++ post) mgr).
Proof.
  split; [apply handle_text_malformed|]. split; [apply receive_loop_skip|].
  intros h pre post mgr. unfold websocket_endpoint.
  destruct (token_subject h) as [[|ch u]|]; [done| |done].
  unfold try_except at 1 3, mbind, M_bind, bind.
  destruct (lookup_admin (admin_row h) mgr) as [[[[[]|]|e] mgr1] t1]; try done.
  destruct (connect (accepted h) (acknowledged h) websocket (String ch u) mgr1)
    as [[[[]|e] mgr2] t2]; [|done].
  unfold try_except. by rewrite receive_loop_skip.
Qed.

(** C7 (the code at the failing input). A malformed frame on which
    [json.loads] raises another exception than [JSONDecodeError], a
    [RecursionError] for a text nested too deep or a [ValueError] for an
    integer literal beyond the digit limit, is not ignored: the exception
    passes [except json.JSONDecodeError], the receive loop ends (the ping
    that follows is never answered), the outer handler prints and closes
    the socket with code 1008, the coroutine returns, and the connection
    stays registered with the count at one. *)
Theorem unparsable_frame_ends_session :
  let h := mkHandshake (Some "alice") (Ok (Some true)) None None in
  let ends (e : exn) :=
    let x := websocket_endpoint 1%nat h
               [Text (Raise e) None None;
                Text (Ok (JObject (Some "ping"))) None None] init in
    outcome x = Ok Closed
    ∧ registeredb (final x) "alice" 1%nat = true
    ∧ get_connection_count (final x) = 1
    ∧ trace x
      = [Accept 1%nat; SendJson 1%nat connection_established None; PrintError;
         Close 1%nat 1008 "Authentication failed"] in
  ends RecursionError ∧ ends OtherValueError.
Proof. vm_compute. done. Qed.

(** The exit by [WebSocketDisconnect] unregisters the connection. *)
Lemma disconnect_exit_unregisters :
  let h := mkHandshake (Some "alice") (Ok (Some true)) None None in
  let x := websocket_endpoint 1%nat h [ReceiveRaises WebSocketDisconnect] init in
  outcome x = Ok Closed ∧ final x = init.
Proof. vm_compute. done. Qed.

(** C4 (the code at the failing input). A registered session whose loop
    exits by an exception other than [WebSocketDisconnect] terminates
    without calling [disconnect]: the connection stays in the mapping and
    the count stays at one. This happens when the client sends a frame
    holding a JSON value that is not an object, when [receive_text] raises
    another error, when the send of a [pong] fails, and when the
    statistics query fails. *)
Theorem error_exit_skips_disconnect :
  let h := mkHandshake (Some "alice") (Ok (Some true)) None None in
  let stuck (frames : list inbound) :=
    let x := websocket_endpoint 1%nat h frames init in
    outcome x = Ok Closed
    ∧ registeredb (final x) "alice" 1%nat = true
    ∧ get_connection_count (final x) = 1 in
  stuck [Text (Ok JOther) None None]
  ∧ stuck [ReceiveRaises RuntimeError]
  ∧ stuck [Text (Ok (JObject (Some "ping"))) (Some RuntimeError) None]
  ∧ stuck [Text (Ok (JObject (Some "request_stats"))) None (Some DatabaseError)]
  ∧ trace (websocket_endpoint 1%nat h [Text (Ok JOther) None None] init)
    = [Accept 1%nat; SendJson 1%nat connection_established None; PrintError;
       Close 1%nat 1008 "Authentication failed"].
Proof. vm_compute. done. Qed.

(** * Further properties of the connection manager *)

Lemma manager_eq (mgr mgr' : ConnectionManager) :
  active_connections mgr = active_connections mgr' →
  connection_count mgr = connection_count mgr' →
  mgr = mgr'.
Proof. destruct mgr, mgr'; cbn; by intros -> ->. Qed.

Lemma connected_admins_spec mgr a :
  a ∈ get_connected_admins mgr ↔ is_Some (active_connections mgr !! a).
Proof.
  unfold get_connected_admins. rewrite list_elem_of_fmap. split.
  - intros ([b s] & -> & Hin). apply elem_of_map_to_list in Hin. by exists s.
  - intros [s Hs]. exists (a, s). split; [done|]. by apply elem_of_map_to_list.
Qed.

(** X1. After any sequence of [connect] and [disconnect] calls from the
    empty registry, [get_connected_admins] lists each identity once, and
    lists exactly the identities that have at least one registered
    connection. *)
Theorem connected_admins_are_the_registered (ops : list op) :
  let mgr := run ops init in
  NoDup (get_connected_admins mgr)
  ∧ ∀ a, a ∈ get_connected_admins mgr ↔ ∃ c, registered mgr a c.
Proof.
  cbn. split; [apply NoDup_fst_map_to_list|].
  intros a. rewrite connected_admins_spec. split.
  - intros [s Hs].
    destruct (set_choose_L s) as [c Hc].
    { eapply no_empty_set_run; [apply no_empty_set_init|done]. }
    exists c, s. split; [exact Hs|exact Hc].
  - intros (c & s & Hs & _). by exists s.
Qed.

Lemma disconnect_register_fresh (w : WebSocket) (a : string)
    (mgr : ConnectionManager) :
  ¬ registered mgr a w →
  active_connections mgr !! a ≠ Some ∅ →
  disconnect w a (register w a mgr) = mgr.
Proof.
  intros Hn He. apply manager_eq.
  - apply map_eq. intros b. rewrite disconnect_lookup, register_active.
    case_decide as Hb; [subst b|by rewrite lookup_insert_ne].
    rewrite lookup_insert_eq. cbn.
    destruct (active_connections mgr !! a) as [s|] eqn:Hm; cbn.
    + assert (w ∉ s) by (intros ?; apply Hn; by exists s).
      assert ((s ∪ {[w]}) ∖ {[w]} = s) as -> by set_solver.
      case_decide; [congruence|done].
    + assert (((∅ : gset nat) ∪ {[w]}) ∖ {[w]} = ∅) as -> by set_solver.
      by rewrite decide_True.
  - rewrite disconnect_count, register_active, lookup_insert_eq.
    rewrite register_count. lia.
Qed.

(** X2. Registering a connection that is not yet registered and then
    unregistering it gives back the manager as it was, mapping and count,
    provided the identity does not hold an empty set. *)
Theorem register_disconnect_round_trip (w : WebSocket) (a : string)
    (mgr : ConnectionManager) :
  ¬ registered mgr a w →
  active_connections mgr !! a ≠ Some ∅ →
  disconnect w a (register w a mgr) = mgr.
Proof. apply disconnect_register_fresh. Qed.

Lemma register_disconnect_round_trip_witness :
  let mgr := run [Register "alice" 1%nat; Register "bob" 2%nat] init in
  disconnect 3%nat "alice" (register 3%nat "alice" mgr) = mgr
  ∧ disconnect 3%nat "carol" (register 3%nat "carol" mgr) = mgr.
Proof.
  intros mgr. split.
  - apply register_disconnect_round_trip.
    + rewrite <-registered_spec. vm_compute. discriminate.
    + vm_compute. discriminate.
  - apply register_disconnect_round_trip.
    + rewrite <-registered_spec. vm_compute. discriminate.
    + vm_compute. discriminate.
Defined.

(** X3. A second [disconnect] of the same connection never changes the
    mapping again: on the mapping, [disconnect] is idempotent. *)
Theorem disconnect_idempotent_on_mapping (w : WebSocket) (a : string)
    (mgr : ConnectionManager) :
  active_connections (disconnect w a (disconnect w a mgr))
  = active_connections (disconnect w a mgr).
Proof.
  apply map_eq. intros b. rewrite !disconnect_lookup.
  case_decide as Hb; [subst b|done].
  rewrite decide_True by done.
  destruct (active_connections mgr !! a) as [s|]; cbn; [|done].
  case_decide as He; cbn; [done|].
  assert (s ∖ {[w]} ∖ {[w]} = s ∖ {[w]}) as -> by set_solver.
  by rewrite decide_False.
Qed.

(** X4. A [connect] or a [disconnect] of one (identity, connection) pair
    leaves the registration of every other pair as it was. *)
Theorem apply_op_frame (mgr : ConnectionManager) (o : op) (b : string)
    (c : WebSocket) :
  (match o with Register a w | Unregister a w => ¬ (b = a ∧ c = w) end) →
  registered (apply_op mgr o) b c ↔ registered mgr b c.
Proof.
  destruct o as [a w|a w]; cbn; intros Hne.
  - rewrite connect_final, registered_register. naive_solver.
  - rewrite registered_disconnect. naive_solver.
Qed.

Lemma apply_op_frame_witness :
  let mgr := run [Register "alice" 1%nat; Register "alice" 2%nat] init in
  registered (apply_op mgr (Unregister "alice" 1%nat)) "alice" 2%nat.
Proof.
  intros mgr.
  apply (proj2 (apply_op_frame mgr (Unregister "alice" 1%nat) "alice" 2%nat
                  ltac:(intros [_ [=]]))).
  apply registered_spec. vm_compute. reflexivity.
Defined.

(** ** Further properties of broadcast *)

(** X5. When [broadcast] returns, the registered pairs are exactly the
    pairs registered before whose identity was excluded or whose send
    succeeded: a connection is evicted only for its own failed send. *)
Theorem broadcast_survivors (send : WebSocket → option exn) (m : message)
    (exclude_admin : option string) (mgr : ConnectionManager) (a : string)
    (c : WebSocket) :
  registered (final (broadcast send m exclude_admin mgr)) a c
  ↔ registered mgr a c ∧ (excluded exclude_admin a = true ∨ send c = None).
Proof.
  rewrite broadcast_spec. cbn. rewrite registered_clean_up, elem_of_dead.
  split.
  - intros [Hreg Hn]. split; [done|].
    destruct (excluded exclude_admin a) eqn:Hex; [by left|right].
    destruct (send c) as [e|] eqn:Hs; [|done].
    exfalso. apply Hn. apply registered_items in Hreg as (s & Hitem & Hc).
    exists s. repeat split; eauto.
  - intros [Hreg Hok]. split; [done|].
    intros (s & _ & _ & Hex & [e Hs]). destruct Hok; congruence.
Qed.

Lemma dead_nil (send : WebSocket → option exn) (exclude_admin : option string)
    (mgr : ConnectionManager) :
  (∀ a c, registered mgr a c → excluded exclude_admin a = false →
          send c = None) →
  dead send exclude_admin (map_to_list (active_connections mgr)) = [].
Proof.
  intros Hok. apply elem_of_nil_inv. intros [c a].
  rewrite elem_of_dead. intros (s & Hitem & Hc & Hex & [e Hs]).
  rewrite (Hok a c) in Hs; [done| |done].
  apply registered_items. eauto.
Qed.

(** X6. When the send succeeds on every registered connection of a
    non-excluded identity, [broadcast] leaves the manager exactly as it
    was, mapping and count. *)
Theorem broadcast_without_failure (send : WebSocket → option exn)
    (m : message) (exclude_admin : option string) (mgr : ConnectionManager) :
  (∀ a c, registered mgr a c → excluded exclude_admin a = false →
          send c = None) →
  final (broadcast send m exclude_admin mgr) = mgr.
Proof.
  intros Hok. rewrite broadcast_spec. cbn. by rewrite dead_nil.
Qed.

Lemma broadcast_without_failure_witness :
  let mgr := run [Register "alice" 1%nat; Register "bob" 2%nat] init in
  final (broadcast (λ _, None) new_donation (Some "bob") mgr) = mgr.
Proof.
  intros mgr. apply broadcast_without_failure. reflexivity.
Defined.

(** X7. A second [broadcast] on which the sends have the same outcomes
    evicts nothing more: the manager after it is the manager after the
    first. *)
Theorem broadcast_twice (send : WebSocket → option exn) (m m' : message)
    (exclude_admin : option string) (mgr : ConnectionManager) :
  let mgr1 := final (broadcast send m exclude_admin mgr) in
  final (broadcast send m' exclude_admin mgr1) = mgr1.
Proof.
  cbn. rewrite (broadcast_spec send m'). cbn. rewrite dead_nil; [done|].
  intros a c Hreg Hex. rewrite broadcast_spec in Hreg. cbn in Hreg.
  apply registered_clean_up in Hreg as [Hreg Hn].
  destruct (send c) as [e|] eqn:Hs; [|done]. exfalso. apply Hn, elem_of_dead.
  apply registered_items in Hreg as (s & Hitem & Hc).
  exists s. rewrite Hs. eauto.
Qed.

Lemma NoDup_dead (send : WebSocket → option exn) (exclude_admin : option string)
    (m : gmap string (gset nat)) :
  NoDup (dead send exclude_admin (map_to_list m)).
Proof.
  unfold dead. apply NoDup_bind; [| |apply NoDup_map_to_list].
  - intros [a1 s1] [a2 s2] [c a] H1 H2 Hy1 Hy2. cbn in *.
    destruct (excluded exclude_admin a1); [by apply not_elem_of_nil in Hy1|].
    destruct (excluded exclude_admin a2); [by apply not_elem_of_nil in Hy2|].
    apply elem_of_dead_of in Hy1 as (-> & _). apply elem_of_dead_of in Hy2 as (-> & _).
    apply elem_of_map_to_list in H1, H2. congruence.
  - intros [a s] _. cbn. destruct (excluded exclude_admin a); [constructor|].
    unfold dead_of. apply NoDup_bind; [| |apply NoDup_elements].
    + intros c1 c2 [c b] _ _ Hy1 Hy2.
      destruct (send c1); [|by apply not_elem_of_nil in Hy1].
      destruct (send c2); [|by apply not_elem_of_nil in Hy2].
      apply list_elem_of_singleton in Hy1, Hy2. congruence.
    + intros c _. destruct (send c); [apply NoDup_singleton|constructor].
Qed.

Lemma clean_up_registered (l : list (WebSocket * string)) (mgr : ConnectionManager) :
  NoDup l → (∀ c a, (c, a) ∈ l → registered mgr a c) →
  connection_count (clean_up l mgr) = connection_count mgr - Z.of_nat (length l)
  ∧ (pair_count (clean_up l mgr) + length l = pair_count mgr)%nat.
Proof.
  unfold clean_up. revert mgr.
  induction l as [|[w a] l IH]; intros mgr Hnd Hreg; cbn.
  - split; lia.
  - apply NoDup_cons in Hnd as [Hni Hnd].
    assert (registered mgr a w) as Hw by (apply Hreg; left).
    destruct (IH (disconnect w a mgr) Hnd) as [Hc Hp].
    { intros c b Hin. apply registered_disconnect. split.
      - apply Hreg. by right.
      - intros [-> ->]. done. }
    rewrite Hc, disconnect_count.
    pose proof (pair_count_disconnect w a mgr Hw).
    destruct Hw as (s & -> & _). split; lia.
Qed.

Lemma no_empty_set_clean_up (l : list (WebSocket * string)) (mgr : ConnectionManager) :
  no_empty_set mgr → no_empty_set (clean_up l mgr).
Proof.
  unfold clean_up. revert mgr. induction l as [|[w a] l IH]; intros mgr Hne; [done|].
  cbn. by apply IH, no_empty_set_disconnect.
Qed.

(** X8. [broadcast] keeps the invariants of the registry: when the count
    equals the number of registered pairs before the call it does so
    after it, each eviction having decremented the count exactly once;
    and no identity is left with an empty set. *)
Theorem broadcast_keeps_invariant (send : WebSocket → option exn)
    (m : message) (exclude_admin : option string) (mgr : ConnectionManager) :
  let mgr' := final (broadcast send m exclude_admin mgr) in
  (get_connection_count mgr = Z.of_nat (pair_count mgr) →
   get_connection_count mgr' = Z.of_nat (pair_count mgr'))
  ∧ (no_empty_set mgr → no_empty_set mgr').
Proof.
  cbn. rewrite broadcast_spec. cbn. split.
  - intros Hc. unfold get_connection_count in *.
    destruct (clean_up_registered
                (dead send exclude_admin (map_to_list (active_connections mgr)))
                mgr) as [Hc' Hp]; [apply NoDup_dead| |lia].
    intros c a (s & Hitem & Hin & _)%elem_of_dead.
    apply registered_items. eauto.
  - apply no_empty_set_clean_up.
Qed.

Lemma broadcast_keeps_invariant_witness :
  let mgr := run [Register "alice" 1%nat; Register "alice" 2%nat;
                  Register "bob" 3%nat] init in
  let send := λ c : WebSocket, if decide (c = 2%nat) then Some RuntimeError else None in
  let mgr' := final (broadcast send new_donation None mgr) in
  get_connection_count mgr = Z.of_nat (pair_count mgr)
  ∧ get_connection_count mgr' = Z.of_nat (pair_count mgr')
  ∧ get_connection_count mgr' = 2.
Proof.
  intros mgr send mgr'.
  assert (get_connection_count mgr = Z.of_nat (pair_count mgr)) as Hc
    by (vm_compute; reflexivity).
  split; [exact Hc|]. split.
  - exact (proj1 (broadcast_keeps_invariant send new_donation None mgr) Hc).
  - vm_compute. reflexivity.
Defined.

Lemma send_count_app (t1 t2 : list effect) :
  send_count (t1 ++ t2) = (send_count t1 + send_count t2)%nat.
Proof. unfold send_count. by rewrite filter_app, length_app. Qed.

Lemma send_count_sends_of (send : WebSocket → option exn) (m : message)
    (cs : list WebSocket) :
  send_count (sends_of send m cs) = length cs.
Proof.
  induction cs as [|c cs IH]; [done|].
  unfold sends_of. rewrite bind_cons. fold (sends_of send m cs).
  rewrite send_count_app, IH. by destruct (send c).
Qed.

Lemma send_count_sends (send : WebSocket → option exn) (m : message)
    (items : list (string * gset nat)) :
  send_count (sends send m None items)
  = sum_list_with (λ kv, size kv.2) items.
Proof.
  induction items as [|[a s] items IH]; [done|].
  unfold sends. rewrite bind_cons. fold (sends send m None items).
  rewrite send_count_app, IH. cbn [excluded fst snd].
  rewrite send_count_sends_of. done.
Qed.

(** X9. A [broadcast] that excludes nobody calls [send_json] as many times
    as there are registered (identity, connection) pairs, whatever the
    outcomes of the sends. *)
Theorem broadcast_send_count (send : WebSocket → option exn) (m : message)
    (mgr : ConnectionManager) :
  send_count (trace (broadcast send m None mgr)) = pair_count mgr.
Proof. rewrite broadcast_spec. cbn. apply send_count_sends. Qed.

Lemma sends_events (send : WebSocket → option exn) (m : message)
    (exclude_admin : option string) (items : list (string * gset nat))
    (e : effect) :
  e ∈ sends send m exclude_admin items →
  e = LogError ∨ ∃ c, e = SendJson c m (send c).
Proof.
  unfold sends. rewrite list_elem_of_bind. intros ([a s] & Hin & _). cbn in Hin.
  destruct (excluded exclude_admin a); [by apply not_elem_of_nil in Hin|].
  unfold sends_of in Hin. apply list_elem_of_bind in Hin as (c & Hin & _).
  apply elem_of_cons in Hin as [->|Hin]; [right; eauto|].
  destruct (send c); [|by apply not_elem_of_nil in Hin].
  apply list_elem_of_singleton in Hin. by left.
Qed.

Lemma broadcast_to_all_events (send : WebSocket → option exn) (m0 : message)
    (mgr : ConnectionManager) (c : WebSocket) (m : message) (r : option exn) :
  SendJson c m r ∈ trace (broadcast send m0 None mgr)
  ↔ m = m0 ∧ r = send c ∧ ∃ a, registered mgr a c.
Proof.
  rewrite broadcast_spec. cbn. split.
  - intros Hin. destruct (sends_events _ _ _ _ _ Hin) as [[=]|(c' & [= -> -> ->])].
    apply elem_of_sends in Hin as (a & s & Hitem & Hc & _ & _).
    repeat split. exists a. apply registered_items. eauto.
  - intros (-> & -> & a & Hreg). apply elem_of_sends.
    apply registered_items in Hreg as (s & Hitem & Hc). by exists a, s.
Qed.

(** X10. The three typed broadcasts call [send_json] on exactly the
    registered connections, excluding none, and only with their own
    message type: [new_donation], [stats_update], and for
    [broadcast_donation_verified] the type that matches the flag,
    [donation_verified] when it holds and [donation_unverified]
    otherwise. *)
Theorem typed_broadcasts (send : WebSocket → option exn) (verified : bool)
    (mgr : ConnectionManager) (c : WebSocket) (m : message) (r : option exn) :
  let reached := r = send c ∧ ∃ a, registered mgr a c in
  (SendJson c m r ∈ trace (broadcast_new_donation send mgr)
   ↔ m = new_donation ∧ reached)
  ∧ (SendJson c m r ∈ trace (broadcast_donation_verified send verified mgr)
     ↔ m = (if verified then donation_verified else donation_unverified)
       ∧ reached)
  ∧ (SendJson c m r ∈ trace (broadcast_stats_update send mgr)
     ↔ m = stats_update ∧ reached).
Proof.
  cbv zeta. split; [|split]; apply broadcast_to_all_events.
Qed.

(** ** Further properties of broadcast on the live mapping *)

(** X11. When no other task registers or unregisters a connection during
    the pass, the loop over the live mapping does what the loop over the
    items taken at the start does: same outcome, same manager, same
    sends. *)
Theorem broadcast_live_without_interference (send : WebSocket → option exn)
    (m : message) (exclude_admin : option string) (mgr : ConnectionManager) :
  broadcast_live send quiet m exclude_admin mgr
  = broadcast send m exclude_admin mgr.
Proof. apply broadcast_live_quiet. Qed.

Section known_identities.
Variable send : WebSocket → option exn.
Variable env : WebSocket → list op.
Variable m : message.
Variable exclude_admin : option string.
Variable D : gset string.
Hypothesis env_known :
  ∀ c o, o ∈ env c → ∃ a w, o = Register a w ∧ a ∈ D.

Lemma dom_register w a mgr :
  a ∈ D → dom (active_connections mgr) = D →
  dom (active_connections (register w a mgr)) = D.
Proof.
  intros Ha Hd. rewrite register_active, dom_insert_L, Hd. set_solver.
Qed.

Lemma dom_interfere l mgr :
  (∀ o, o ∈ l → ∃ a w, o = Register a w ∧ a ∈ D) →
  dom (active_connections mgr) = D →
  dom (active_connections (interfere l mgr)) = D.
Proof.
  unfold interfere. revert mgr. induction l as [|o l IH]; intros mgr Hl Hd; [done|].
  cbn [foldl]. apply IH.
  - intros o' ?. apply Hl. by right.
  - destruct (Hl o) as (a & w & -> & Ha); [left|].
    cbn [apply_op]. rewrite connect_final. by apply dom_register.
Qed.

Lemma live_connections_known a cs d mgr :
  dom (active_connections mgr) = D →
  ∃ d' mgr' t,
    live_connections send env m a cs d mgr = (Ok d', mgr', t)
    ∧ dom (active_connections mgr') = D.
Proof.
  revert d mgr. induction cs as [|c cs IH]; intros d mgr Hd.
  - by exists d, mgr, [].
  - cbn [live_connections]. unfold mbind at 1, M_bind, bind at 1.
    unfold try_except, mbind, M_bind, bind, emit, modify, mret, M_ret, ret,
      raise. cbn.
    pose proof (dom_interfere (env c) mgr (env_known c) Hd) as Hd'.
    destruct (send c) as [e|]; cbn.
    + destruct (IH (d ++ [(c, a)]) _ Hd') as (d' & mgr' & t & -> & ?).
      by eexists _, _, _.
    + destruct (IH d _ Hd') as (d' & mgr' & t & -> & ?).
      by eexists _, _, _.
Qed.

Lemma live_items_known n d mgr :
  dom (active_connections mgr) = D →
  ∃ d' mgr' t,
    live_items send env m exclude_admin (size D) n d mgr = (Ok d', mgr', t)
    ∧ dom (active_connections mgr') = D.
Proof.
  revert d mgr. induction n as [|n IH]; intros d mgr Hd.
  - cbn [live_items]. rewrite length_map_to_list, <-size_dom, Hd.
    rewrite decide_True by done.
    exists d, mgr, []. split; [|done].
    by destruct (map_to_list (active_connections mgr) !! _) as [[??]|].
  - cbn [live_items]. rewrite length_map_to_list, <-size_dom, Hd.
    rewrite decide_True by done.
    destruct (map_to_list (active_connections mgr) !! _) as [[a s]|];
      [|by exists d, mgr, []].
    destruct (excluded exclude_admin a); [by apply IH|].
    unfold mbind, M_bind, bind.
    destruct (live_connections_known a (elements s) d mgr Hd)
      as (d1 & mgr1 & t1 & -> & Hd1).
    destruct (IH d1 mgr1 Hd1) as (d2 & mgr2 & t2 & -> & Hd2).
    by eexists _, _, _.
Qed.
End known_identities.

(** X12. When the only registry operations that other tasks perform
    during the pass are registrations under identities that are already
    keys of the mapping (no disconnect, no new identity), the iterator of
    the mapping never raises: [broadcast] on the live mapping returns
    normally. *)
Theorem broadcast_live_known_identities (send : WebSocket → option exn)
    (env : WebSocket → list op) (m : message)
    (exclude_admin : option string) (mgr : ConnectionManager) :
  (∀ c o, o ∈ env c →
     ∃ a w, o = Register a w ∧ is_Some (active_connections mgr !! a)) →
  outcome (broadcast_live send env m exclude_admin mgr) = Ok ().
Proof.
  intros Henv. unfold broadcast_live, mbind, M_bind, bind.
  rewrite length_map_to_list, <-size_dom.
  destruct (live_items_known send env m exclude_admin
              (dom (active_connections mgr))
              ltac:(intros c o Ho; destruct (Henv c o Ho) as (a & w & -> & Ha);
                    exists a, w; split; [done|by apply elem_of_dom])
              (size (dom (active_connections mgr))) [] mgr eq_refl)
    as (d & mgr' & t & -> & _).
  done.
Qed.

Lemma broadcast_live_known_identities_witness :
  let mgr := run [Register "alice" 1%nat; Register "bob" 2%nat] init in
  let env := λ c : WebSocket, if decide (c = 1%nat) then [Register "bob" 3%nat] else [] in
  outcome (broadcast_live (λ _, None) env new_donation None mgr) = Ok ().
Proof.
  intros mgr env. apply broadcast_live_known_identities.
  intros c o. unfold env. case_decide.
  - intros ->%list_elem_of_singleton. exists "bob", 3%nat. split; [done|].
    vm_compute. eauto.
  - intros []%not_elem_of_nil.
Defined.

(** ** Further properties of the session handler *)

Lemma handle_text_frame websocket data sent queried mgr :
  final (handle_text websocket data sent queried mgr) = mgr
  ∧ Forall (own websocket) (trace (handle_text websocket data sent queried mgr)).
Proof.
  unfold handle_text.
  destruct data as [[t|]|e];
    [| |by destruct e; cbn; (split; [|apply Forall_nil])].
  - unfold try_except, mbind, M_bind, bind. cbn.
    repeat case_bool_decide; destruct sent as [[]|], queried as [[]|]; cbn;
      (split; [done|repeat constructor]).
  - split; [done|constructor].
Qed.

Lemma receive_loop_frame websocket frames mgr :
  final (receive_loop websocket frames mgr) = mgr
  ∧ Forall (own websocket) (trace (receive_loop websocket frames mgr)).
Proof.
  induction frames as [|f frames IH]; [by split; [|constructor]|].
  destruct f as [data sent queried|e]; [|by split; [|constructor]].
  cbn [receive_loop]. unfold mbind, M_bind, bind.
  destruct (handle_text_frame websocket data sent queried mgr) as [Hm Ht].
  destruct (handle_text websocket data sent queried mgr) as [[[[]|e] mgr1] t1];
    cbn in Hm, Ht; subst mgr1; [|by split].
  destruct IH as [Hm' Ht'].
  destruct (receive_loop websocket frames mgr) as [[r mgr2] t2]; cbn in *.
  split; [done|]. by apply Forall_app.
Qed.

(** X13. Handling the frames of a session never changes the manager, and
    every effect of the receive loop is a send on the session's own
    connection or a log line: a reply never goes to another
    administrator. *)
Theorem receive_loop_touches_nothing_else (websocket : WebSocket)
    (frames : list inbound) (mgr : ConnectionManager) :
  let x := receive_loop websocket frames mgr in
  final x = mgr
  ∧ Forall (λ e, e = LogError ∨ ∃ m r, e = SendJson websocket m r) (trace x).
Proof.
  cbn. destruct (receive_loop_frame websocket frames mgr) as [Hm Ht].
  split; [done|].
  assert (∀ fs mgr0,
    Forall (λ e, e = LogError ∨ ∃ m r, e = SendJson websocket m r)
      (trace (receive_loop websocket fs mgr0))) as Hgen; [|apply Hgen].
  clear. induction fs as [|f fs IH]; intros mgr0; [constructor|].
  destruct f as [data sent queried|e]; [|constructor].
  cbn [receive_loop]. unfold mbind, M_bind, bind.
  assert (Forall (λ e, e = LogError ∨ ∃ m r, e = SendJson websocket m r)
            (trace (handle_text websocket data sent queried mgr0))) as Hh.
  { unfold handle_text.
    destruct data as [[t|]|e0];
      [| |by destruct e0; cbn; apply Forall_nil]; [|constructor].
    unfold try_except, mbind, M_bind, bind. cbn.
    repeat case_bool_decide; destruct sent as [[]|], queried as [[]|]; cbn;
      repeat (apply Forall_cons; split; [first [by left|right; eauto]|]);
      done. }
  destruct (handle_text websocket data sent queried mgr0) as [[[[]|e] mgr1] t1];
    cbn in Hh; [|done].
  specialize (IH mgr1).
  destruct (receive_loop websocket fs mgr1) as [[r mgr2] t2]; cbn in *.
  by apply Forall_app.
Qed.

(** X14. A frame holding a JSON object whose type is neither ["ping"] nor
    ["request_stats"], or which has no type at all, is ignored like a
    malformed one: nothing is sent, the manager is unchanged and the loop
    goes on. *)
Theorem other_type_ignored (websocket : WebSocket) (t : option string)
    (sent queried : option exn) (rest : list inbound) (mgr : ConnectionManager) :
  t ≠ Some "ping" → t ≠ Some "request_stats" →
  handle_text websocket (Ok (JObject t)) sent queried mgr = (Ok (), mgr, [])
  ∧ receive_loop websocket (Text (Ok (JObject t)) sent queried :: rest) mgr
    = receive_loop websocket rest mgr.
Proof.
  intros Hp Hr.
  assert (handle_text websocket (Ok (JObject t)) sent queried mgr
          = (Ok (), mgr, [])) as Hh.
  { unfold handle_text, try_except, mbind, M_bind, bind. cbn.
    by rewrite !bool_decide_eq_false_2. }
  split; [done|]. cbn [receive_loop]. unfold mbind, M_bind, bind. rewrite Hh.
  by destruct (receive_loop websocket rest mgr) as [[??]?].
Qed.

Lemma other_type_ignored_witness :
  handle_text 1%nat (Ok (JObject (Some "subscribe"))) None None init
  = (Ok (), init, [])
  ∧ handle_text 1%nat (Ok (JObject None)) None None init = (Ok (), init, []).
Proof.
  split.
  - apply (other_type_ignored 1%nat (Some "subscribe") None None [] init);
      discriminate.
  - apply (other_type_ignored 1%nat None None None [] init); discriminate.
Defined.

(** X15. A ["request_stats"] frame is never answered: its handling sends
    nothing, leaves the manager unchanged and raises, with the exception
    of the counting queries when they fail and otherwise with the
    [AttributeError] of building the query of the total amount; so the
    receive loop ends there. *)
Theorem request_stats_never_answered (websocket : WebSocket)
    (sent queried : option exn) (rest : list inbound) (mgr : ConnectionManager) :
  queried ≠ Some JSONDecodeError →
  handle_text websocket (Ok (JObject (Some "request_stats"))) sent queried mgr
  = (Raise (default AttributeError queried), mgr, [])
  ∧ receive_loop websocket
      (Text (Ok (JObject (Some "request_stats"))) sent queried :: rest) mgr
    = (Raise (default AttributeError queried), mgr, []).
Proof.
  intros Hq.
  assert (handle_text websocket (Ok (JObject (Some "request_stats"))) sent
            queried mgr = (Raise (default AttributeError queried), mgr, []))
    as Hh by (by destruct queried as [[]|]).
  split; [done|]. cbn [receive_loop]. unfold mbind, M_bind, bind. by rewrite Hh.
Qed.

Lemma request_stats_never_answered_witness :
  handle_text 1%nat (Ok (JObject (Some "request_stats"))) None None init
  = (Raise AttributeError, init, []).
Proof.
  apply (proj1 (request_stats_never_answered 1%nat None None [] init
                  ltac:(discriminate))).
Defined.

(** X16. [websocket_endpoint] never lets an exception escape: whatever the
    handshake and the frames, the coroutine returns. *)
Theorem websocket_endpoint_returns (websocket : WebSocket) (h : handshake)
    (frames : list inbound) (mgr : ConnectionManager) :
  ∃ st, outcome (websocket_endpoint websocket h frames mgr) = Ok st.
Proof.
  unfold websocket_endpoint, try_except at 1.
  match goal with |- context [match ?c mgr with _ => _ end] =>
    destruct (c mgr) as [[[st|e] mgr1] t1] end.
  - by exists st.
  - cbn. by exists Closed.
Qed.

(** X17. A session whose handshake fails (token without subject, unknown
    or inactive administrator, failing lookup, or failing [accept]) is
    never registered and is sent no message: the manager is unchanged
    and the coroutine ends without entering the receive loop. *)
Theorem failed_handshake_leaves_no_trace (websocket : WebSocket)
    (h : handshake) (frames : list inbound) (mgr : ConnectionManager) :
  established h = false →
  let x := websocket_endpoint websocket h frames mgr in
  final x = mgr ∧ send_count (trace x) = 0%nat
  ∧ (outcome x = Ok Rejected ∨ outcome x = Ok Closed).
Proof.
  unfold established, authenticated, websocket_endpoint.
  destruct h as [[[|ch u]|] [[[|]|]|e] [ea|] ack]; cbn; intros He;
    try discriminate; try (by repeat split; eauto).
Qed.

Lemma failed_handshake_leaves_no_trace_witness :
  let mgr := run [Register "alice" 1%nat] init in
  let h := mkHandshake (Some "bob") (Ok (Some false)) None None in
  final (websocket_endpoint 2%nat h [Text (Raise JSONDecodeError) None None] mgr) = mgr.
Proof.
  intros mgr h.
  apply (failed_handshake_leaves_no_trace 2%nat h [Text (Raise JSONDecodeError) None None] mgr).
  reflexivity.
Defined.

Lemma handle_text_answered websocket data sent queried mgr :
  answered (Text data sent queried) = true →
  ∃ t, handle_text websocket data sent queried mgr = (Ok (), mgr, t).
Proof.
  unfold answered, handle_text.
  destruct data as [[t|]|e]; [| done |by destruct e; try done; exists []].
  unfold try_except, mbind, M_bind, bind. cbn.
  repeat case_bool_decide; intros Ha; try apply bool_decide_eq_true in Ha;
    subst; cbn; try (destruct sent as [[]|]);
    first [by exists []|by eexists].
Qed.

Lemma receive_loop_answered websocket pre rest mgr :
  forallb answered pre = true →
  ∃ t, receive_loop websocket (pre ++ rest) mgr
       = (outcome (receive_loop websocket rest mgr), mgr,
          t ++ trace (receive_loop websocket rest mgr)).
Proof.
  induction pre as [|f pre IH]; intros Ha.
  - exists []. cbn [app].
    destruct (receive_loop_frame websocket rest mgr) as [Hm _].
    destruct (receive_loop websocket rest mgr) as [[r mgr'] t].
    unfold final, outcome, trace in *. cbn in *. by subst.
  - cbn in Ha. apply andb_true_iff in Ha as [Hf Ha].
    destruct f as [data sent queried|e]; [|done].
    destruct (handle_text_answered websocket data sent queried mgr Hf) as [t1 Hh].
    destruct (IH Ha) as [t2 IH'].
    exists (t1 ++ t2). cbn [app receive_loop]. unfold mbind, M_bind, bind.
    rewrite Hh, IH'. by rewrite app_assoc.
Qed.

Lemma established_inv h :
  established h = true →
  ∃ ch u, token_subject h = Some (String ch u)
          ∧ admin_row h = Ok (Some true) ∧ accepted h = None.
Proof.
  unfold established, authenticated.
  destruct h as [[[|ch u]|] [[[|]|]|e] [ea|] ack]; cbn; try done.
  intros _. by exists ch, u.
Qed.

(** X18. Once the handshake has succeeded, and as long as the frames that
    arrive are answered, the coroutine stays suspended in the receive
    loop and the manager is the one obtained by registering the
    connection once under the subject of the token. *)
Theorem active_session_is_registered (websocket : WebSocket) (h : handshake)
    (a : string) (frames : list inbound) (mgr : ConnectionManager) :
  established h = true → token_subject h = Some a →
  forallb answered frames = true →
  let x := websocket_endpoint websocket h frames mgr in
  outcome x = Ok Active ∧ final x = register websocket a mgr.
Proof.
  intros He Ha Hf. destruct (established_inv h He) as (ch & u & Ht & Hr & Hacc).
  rewrite Ht in Ha. injection Ha as <-.
  destruct (receive_loop_answered websocket frames []
              (register websocket (String ch u) mgr) Hf) as [t Hl].
  rewrite app_nil_r in Hl.
  cbv zeta. unfold websocket_endpoint. rewrite Ht, Hr, Hacc.
  unfold try_except, mbind, M_bind, bind.
  cbn [lookup_admin mret M_ret ret]. rewrite connect_spec, Hl. done.
Qed.

Lemma active_session_is_registered_witness :
  let h := mkHandshake (Some "alice") (Ok (Some true)) None None in
  let frames := [Text (Ok (JObject (Some "ping"))) None None;
                 Text (Raise JSONDecodeError) None None] in
  final (websocket_endpoint 1%nat h frames init) = register 1%nat "alice" init.
Proof.
  intros h frames.
  apply (active_session_is_registered 1%nat h "alice" frames init);
    reflexivity.
Defined.

(** X19. A session that registers a connection which was not registered,
    has its frames answered and then sees the client disconnect leaves
    the manager exactly as it found it, mapping and count; the frames
    after the disconnect are never read. *)
Theorem clean_session_restores_manager (websocket : WebSocket)
    (h : handshake) (a : string) (pre post : list inbound)
    (mgr : ConnectionManager) :
  established h = true → token_subject h = Some a →
  forallb answered pre = true →
  ¬ registered mgr a websocket →
  active_connections mgr !! a ≠ Some ∅ →
  let x := websocket_endpoint websocket h
             (pre ++ ReceiveRaises WebSocketDisconnect :: post) mgr in
  outcome x = Ok Closed ∧ final x = mgr.
Proof.
  intros He Ha Hf Hn Hne.
  destruct (established_inv h He) as (ch & u & Ht & Hr & Hacc).
  rewrite Ht in Ha. injection Ha as <-.
  destruct (receive_loop_answered websocket pre
              (ReceiveRaises WebSocketDisconnect :: post)
              (register websocket (String ch u) mgr) Hf) as [t Hl].
  cbv zeta. unfold websocket_endpoint. rewrite Ht, Hr, Hacc.
  unfold try_except, mbind, M_bind, bind.
  cbn [lookup_admin mret M_ret ret]. rewrite connect_spec, Hl.
  cbn. unfold final, outcome. cbn. by rewrite disconnect_register_fresh.
Qed.

Lemma clean_session_restores_manager_witness :
  let mgr := run [Register "alice" 1%nat] init in
  let h := mkHandshake (Some "alice") (Ok (Some true)) None None in
  let frames := [Text (Ok (JObject (Some "ping"))) None None]
                ++ ReceiveRaises WebSocketDisconnect :: [Text (Raise JSONDecodeError) None None] in
  final (websocket_endpoint 2%nat h frames mgr) = mgr.
Proof.
  intros mgr h frames.
  apply (clean_session_restores_manager 2%nat h "alice"
           [Text (Ok (JObject (Some "ping"))) None None]
           [Text (Raise JSONDecodeError) None None] mgr); try reflexivity.
  - rewrite <-registered_spec. vm_compute. discriminate.
  - vm_compute. discriminate.
Defined.

Lemma endpoint_final_cases websocket h frames mgr :
  let x := websocket_endpoint websocket h frames mgr in
  final x = mgr
  ∨ ∃ a, token_subject h = Some a
         ∧ (final x = register websocket a mgr
            ∨ final x = disconnect websocket a (register websocket a mgr)).
Proof.
  cbn. destruct (established h) eqn:He.
  - right. destruct (established_inv h He) as (ch & u & Ht & Hr & Hacc).
    exists (String ch u). split; [done|].
    unfold websocket_endpoint. rewrite Ht, Hr, Hacc.
    unfold try_except, mbind, M_bind, bind.
    cbn [lookup_admin mret M_ret ret]. rewrite connect_spec.
    destruct (receive_loop_frame websocket frames
                (register websocket (String ch u) mgr)) as [Hm _].
    destruct (receive_loop websocket frames _) as [[[st|e] mgr1] t1];
      cbn in Hm; subst mgr1; cbn; [by left|].
    destruct e; cbn; eauto.
  - left. unfold established, authenticated, websocket_endpoint in *.
    destruct h as [[[|ch u]|] [[[|]|]|e] [ea|] ack]; cbn in *; done.
Qed.

(** X20. Whatever the handshake and the frames, a session changes the
    registration of no pair other than its own connection under the
    subject of its token, and the count moves by at most one. *)
Theorem session_frame (websocket : WebSocket) (h : handshake)
    (frames : list inbound) (mgr : ConnectionManager) (b : string)
    (c : WebSocket) :
  ¬ (token_subject h = Some b ∧ c = websocket) →
  let x := websocket_endpoint websocket h frames mgr in
  (registered (final x) b c ↔ registered mgr b c)
  ∧ get_connection_count mgr ≤ get_connection_count (final x)
    ≤ get_connection_count mgr + 1.
Proof.
  intros Hne. cbn.
  destruct (endpoint_final_cases websocket h frames mgr)
    as [->|(a & Ha & [->| ->])]; unfold get_connection_count.
  - split; [done|lia].
  - rewrite registered_register, register_count. split; [|lia].
    split; [|by left]. intros [?|[-> ->]]; [done|]. by destruct Hne.
  - rewrite registered_disconnect, registered_register, disconnect_count,
      register_active, lookup_insert_eq, register_count.
    split; [|lia]. split; [|naive_solver].
    intros [[?|[-> ->]] _]; [done|]. by destruct Hne.
Qed.

Lemma session_frame_witness :
  let mgr := run [Register "alice" 1%nat] init in
  let h := mkHandshake (Some "bob") (Ok (Some true)) None None in
  registered (final (websocket_endpoint 2%nat h [ReceiveRaises RuntimeError] mgr))
    "alice" 1%nat.
Proof.
  intros mgr h.
  apply (proj1 (session_frame 2%nat h [ReceiveRaises RuntimeError] mgr
                  "alice" 1%nat ltac:(intros [[=] _]))).
  apply registered_spec. vm_compute. reflexivity.
Defined.

(** * Properties of the file names *)

Example sanitize_filename_traversal :
  sanitize_filename (λ _, false) (of_string "../../etc/pass wd")
  = of_string "passwd.jpg"
  ∧ sanitize_filename (λ _, false) (of_string "uploads/") = of_string "unnamed_file.jpg"
  ∧ sanitize_filename (λ _, false) (of_string "a/..") = of_string "..".
Proof. vm_compute. done. Qed.

Section file_names.
Variable unicode_alnum : N → bool.

Lemma basename_acc (acc p : list N) :
  slash ∉ p →
  foldl (λ acc c, if bool_decide (c = slash) then [] else acc ++ [c]) acc p
  = acc ++ p.
Proof.
  revert acc. induction p as [|c p IH]; intros acc Hn; cbn.
  - by rewrite app_nil_r.
  - apply not_elem_of_cons in Hn as [Hc Hn].
    rewrite bool_decide_eq_false_2 by done.
    rewrite IH by done. by rewrite <-app_assoc.
Qed.

Lemma basename_plain (p : list N) : slash ∉ p → basename p = p.
Proof. apply basename_acc. Qed.

Lemma sanitize_filename_kept (filename : list N) :
  Forall (λ c, kept unicode_alnum c = true)
    (sanitize_filename unicode_alnum filename).
Proof.
  unfold sanitize_filename.
  assert (Forall (λ c, kept unicode_alnum c = true)
            (filter (λ c, kept unicode_alnum c = true) (basename filename)))
    as Hf by (apply Forall_forall; intros c Hc; by apply list_elem_of_filter in Hc as [? _]).
  repeat case_bool_decide.
  - apply Forall_forall. intros c Hc.
    repeat (apply elem_of_cons in Hc as [->|Hc]; [reflexivity|]).
    by apply not_elem_of_nil in Hc.
  - apply Forall_app. split; [done|].
    apply Forall_forall. intros c Hc.
    repeat (apply elem_of_cons in Hc as [->|Hc]; [reflexivity|]).
    by apply not_elem_of_nil in Hc.
  - done.
Qed.

Lemma sanitize_filename_dot (filename : list N) :
  dot ∈ sanitize_filename unicode_alnum filename.
Proof.
  unfold sanitize_filename. repeat case_bool_decide.
  - vm_compute. apply list_elem_of_In. cbn. tauto.
  - apply elem_of_app. right. vm_compute. apply list_elem_of_In. cbn. tauto.
  - by destruct (decide (dot ∈ filter (λ c, kept unicode_alnum c = true)
                                  (basename filename))).
Qed.
End file_names.

(** X21. Whatever the uploaded name, [sanitize_filename] returns a
    non-empty name that contains a dot and is made only of alphanumeric
    characters, dots, hyphens and underscores; in particular it holds no
    path separator. *)
Theorem sanitize_filename_safe (unicode_alnum : N → bool)
    (filename : list N) :
  let r := sanitize_filename unicode_alnum filename in
  r ≠ [] ∧ dot ∈ r
  ∧ Forall (λ c, kept unicode_alnum c = true) r
  ∧ (slash ∉ r) ∧ (backslash ∉ r).
Proof.
  cbn. pose proof (sanitize_filename_dot unicode_alnum filename) as Hd.
  pose proof (sanitize_filename_kept unicode_alnum filename) as Hk.
  split; [intros Hr; rewrite Hr in Hd; by apply not_elem_of_nil in Hd|].
  split; [done|]. split; [done|].
  rewrite Forall_forall in Hk.
  split; intros Hin; apply Hk in Hin; discriminate.
Qed.

(** X22. [sanitize_filename] is idempotent: a sanitized name is returned
    unchanged when sanitized again. *)
Theorem sanitize_filename_idempotent (unicode_alnum : N → bool)
    (filename : list N) :
  sanitize_filename unicode_alnum (sanitize_filename unicode_alnum filename)
  = sanitize_filename unicode_alnum filename.
Proof.
  pose proof (sanitize_filename_dot unicode_alnum filename) as Hd.
  pose proof (sanitize_filename_kept unicode_alnum filename) as Hk.
  set (r := sanitize_filename unicode_alnum filename) in *.
  unfold sanitize_filename at 1.
  rewrite basename_plain.
  - assert (filter (λ c, kept unicode_alnum c = true) r = r) as ->.
    { clearbody r. clear Hd. induction Hk as [|c r Hc Hk IH]; [done|].
      rewrite filter_cons, decide_True by done. by rewrite IH. }
    rewrite bool_decide_eq_false_2.
    + rewrite bool_decide_eq_false_2; [done|]. by intros Hn.
    + intros Hr. rewrite Hr in Hd. by apply not_elem_of_nil in Hd.
  - rewrite Forall_forall in Hk. intros Hin. apply Hk in Hin. discriminate.
Qed.

(** * Properties of the validators *)

Example validate_examples :
  validate_name (λ _, false) (of_string " a") = Valid (of_string "a")
  ∧ validate_name (λ _, false) (of_string "a") =
      ValueError "Donor name must be at least 2 characters"
  ∧ validate_transaction_reference (λ _, false) (Some (of_string "   "))
    = Valid None
  ∧ validate_transaction_reference (λ _, false)
      (Some (of_string "TX-1" ++ [10%N])) = Valid (Some (of_string "TX-1"))
  ∧ validate_transaction_reference (λ _, false) (Some (of_string "TX 1"))
    = ValueError "Transaction reference can only contain letters, numbers, hyphens, and underscores".
Proof. vm_compute. done. Qed.

Section validators.
Variable unicode_space : N → bool.

Lemma lstrip_suffix (v : list N) :
  ∃ k, v = k ++ lstrip unicode_space v.
Proof.
  induction v as [|c v [k IH]]; [by exists []|]. cbn.
  destruct (isspace unicode_space c); [|by exists []].
  exists (c :: k). cbn. by rewrite <-IH.
Qed.

Lemma lstrip_head (v : list N) (c : N) :
  head (lstrip unicode_space v) = Some c → isspace unicode_space c = false.
Proof.
  induction v as [|c' v IH]; [done|]. cbn.
  destruct (isspace unicode_space c') eqn:Hc; [done|]. cbn. by intros [= <-].
Qed.

Lemma lstrip_plain (v : list N) :
  (∀ c, head v = Some c → isspace unicode_space c = false) →
  lstrip unicode_space v = v.
Proof. destruct v as [|c v]; [done|]. cbn. intros H. by rewrite (H c). Qed.

Lemma lstrip_length (v : list N) :
  (length (lstrip unicode_space v) ≤ length v)%nat.
Proof.
  destruct (lstrip_suffix v) as [k Hk]. rewrite Hk at 2.
  rewrite length_app. lia.
Qed.

Lemma lstrip_last (v : list N) :
  lstrip unicode_space v ≠ [] → last (lstrip unicode_space v) = last v.
Proof.
  intros Hne. destruct (lstrip_suffix v) as [k Hk]. rewrite Hk at 2.
  rewrite last_app. by destruct (last (lstrip unicode_space v)) eqn:Hl;
    [|apply last_None in Hl].
Qed.

Lemma strip_length (v : list N) :
  (length (strip unicode_space v) ≤ length v)%nat.
Proof.
  unfold strip. rewrite length_reverse.
  etrans; [apply lstrip_length|]. rewrite length_reverse. apply lstrip_length.
Qed.

Lemma strip_last (v : list N) (c : N) :
  last (strip unicode_space v) = Some c → isspace unicode_space c = false.
Proof. unfold strip. rewrite last_reverse. apply lstrip_head. Qed.

Lemma strip_head (v : list N) (c : N) :
  head (strip unicode_space v) = Some c → isspace unicode_space c = false.
Proof.
  unfold strip. rewrite <-last_reverse, reverse_involutive. intros Hl.
  assert (lstrip unicode_space (reverse (lstrip unicode_space v)) ≠ []) as Hne
    by (intros He; by rewrite He in Hl).
  rewrite lstrip_last, last_reverse in Hl by done.
  by apply lstrip_head in Hl.
Qed.

Lemma strip_plain (w : list N) :
  (∀ c, head w = Some c → isspace unicode_space c = false) →
  (∀ c, last w = Some c → isspace unicode_space c = false) →
  strip unicode_space w = w.
Proof.
  intros Hh Hl. unfold strip. rewrite (lstrip_plain w Hh).
  rewrite lstrip_plain; [apply reverse_involutive|].
  intros c. rewrite <-last_reverse, reverse_involutive. apply Hl.
Qed.

Lemma strip_newline (w : list N) :
  w ≠ [] →
  (∀ c, head w = Some c → isspace unicode_space c = false) →
  (∀ c, last w = Some c → isspace unicode_space c = false) →
  strip unicode_space (w ++ [10%N]) = w.
Proof.
  intros Hne Hh Hl. unfold strip.
  rewrite (lstrip_plain (w ++ [10%N])).
  - rewrite reverse_snoc. cbn.
    rewrite lstrip_plain; [apply reverse_involutive|].
    intros c. rewrite <-last_reverse, reverse_involutive. apply Hl.
  - intros c. destruct w; [done|]. apply Hh.
Qed.

Lemma reference_char_not_space (c : N) :
  reference_char c = true → isspace unicode_space c = false.
Proof.
  unfold reference_char, isspace. intros Hc.
  destruct (N.ltb_spec c 128).
  - apply orb_false_iff. split; apply andb_false_iff.
    + destruct (N.leb_spec c 13); [|by right]. left. apply N.leb_gt.
      repeat (apply orb_true_iff in Hc as [Hc|Hc]);
        rewrite ?andb_true_iff, ?N.leb_le, ?N.eqb_eq in Hc; lia.
    + destruct (N.leb_spec c 32); [|by right]. left. apply N.leb_gt.
      repeat (apply orb_true_iff in Hc as [Hc|Hc]);
        rewrite ?andb_true_iff, ?N.leb_le, ?N.eqb_eq in Hc; lia.
  - repeat (apply orb_true_iff in Hc as [Hc|Hc]);
      rewrite ?andb_true_iff, ?N.leb_le, ?N.eqb_eq in Hc; lia.
Qed.

Lemma forallb_Forall (class : N → bool) (w : list N) :
  forallb class w = true → Forall (λ c, class c = true) w.
Proof.
  induction w as [|c w IH]; [constructor|]. cbn.
  intros [Hc Hw]%andb_true_iff. constructor; auto.
Qed.

Lemma match_class_plus_inv (class : N → bool) (v : list N) :
  match_class_plus class v = true →
  ∃ w, w ≠ [] ∧ Forall (λ c, class c = true) w ∧ (v = w ∨ v = w ++ [10%N]).
Proof.
  unfold match_class_plus. destruct (decide (last v = Some 10%N)) as [Hl|Hl].
  - rewrite (bool_decide_eq_true_2 _ Hl).
    apply last_Some in Hl as [w ->].
    rewrite length_app, Nat.add_sub, take_app_length.
    intros [Hne Hf]%andb_true_iff. apply bool_decide_eq_true in Hne.
    exists w. eauto using forallb_Forall.
  - rewrite (bool_decide_eq_false_2 _ Hl).
    intros [Hne Hf]%andb_true_iff. apply bool_decide_eq_true in Hne.
    exists v. eauto using forallb_Forall.
Qed.
End validators.

(** X23. A donor name that [validate_name] accepts is stored without its
    surrounding whitespace: the result is the stripped input, it is not
    empty, it has at most 100 characters and neither begins nor ends
    with a whitespace character. The bounds 2 and 100 are checked on the
    input as typed. *)
Theorem validate_name_valid (unicode_space : N → bool) (v r : list N) :
  validate_name unicode_space v = Valid r →
  r = strip unicode_space v ∧ r ≠ []
  ∧ (2 ≤ length v ≤ 100)%nat ∧ (length r ≤ 100)%nat
  ∧ (∀ c, head r = Some c → isspace unicode_space c = false)
  ∧ (∀ c, last r = Some c → isspace unicode_space c = false).
Proof.
  unfold validate_name. repeat case_bool_decide; try done.
  intros [= <-]. split; [done|]. split; [done|].
  pose proof (strip_length unicode_space v).
  split; [lia|]. split; [lia|].
  split; intros c; [apply strip_head|apply strip_last].
Qed.

Lemma validate_name_valid_witness :
  validate_name (λ _, false) (of_string "  Abebe Bikila ")
  = Valid (of_string "Abebe Bikila")
  ∧ of_string "Abebe Bikila" = strip (λ _, false) (of_string "  Abebe Bikila ").
Proof.
  assert (validate_name (λ _, false) (of_string "  Abebe Bikila ")
          = Valid (of_string "Abebe Bikila")) as H by (vm_compute; reflexivity).
  split; [exact H|].
  exact (proj1 (validate_name_valid _ _ _ H)).
Defined.

(** X24. A transaction reference that [validate_transaction_reference]
    accepts and keeps is made only of ASCII letters, digits, hyphens and
    underscores; it is the input, or the input without one final newline
    (which [$] lets through and [strip] removes), so it has between 2
    and 50 characters. *)
Theorem validate_transaction_reference_valid (unicode_space : N → bool)
    (v : option (list N)) (r : list N) :
  validate_transaction_reference unicode_space v = Valid (Some r) →
  Forall (λ c, reference_char c = true) r
  ∧ (2 ≤ length r ≤ 50)%nat
  ∧ (v = Some r ∨ v = Some (r ++ [10%N])).
Proof.
  unfold validate_transaction_reference. destruct v as [v|]; [|done].
  repeat case_bool_decide; try done.
  destruct (match_class_plus reference_char v) eqn:Hm; [|done]. cbn.
  intros [= <-].
  apply match_class_plus_inv in Hm as (w & Hne & Hw & Hv).
  assert (∀ c, head w = Some c → isspace unicode_space c = false) as Hh.
  { intros c Hc. apply reference_char_not_space.
    rewrite Forall_forall in Hw. apply Hw.
    apply head_Some in Hc as [w' ->]. left. }
  assert (∀ c, last w = Some c → isspace unicode_space c = false) as Hl.
  { intros c Hc. apply reference_char_not_space.
    rewrite Forall_forall in Hw. apply Hw.
    apply last_Some in Hc as [w' ->]. apply elem_of_app. right. left. }
  destruct Hv as [->| ->].
  - rewrite strip_plain by done. split; [done|]. split; [lia|by left].
  - rewrite strip_newline by done. rewrite length_app in *. cbn in *.
    split; [done|]. split; [lia|by right].
Qed.

Lemma validate_transaction_reference_valid_witness :
  validate_transaction_reference (λ _, false) (Some (of_string "TX-1" ++ [10%N]))
  = Valid (Some (of_string "TX-1"))
  ∧ Forall (λ c, reference_char c = true) (of_string "TX-1").
Proof.
  assert (validate_transaction_reference (λ _, false)
            (Some (of_string "TX-1" ++ [10%N]))
          = Valid (Some (of_string "TX-1"))) as H by (vm_compute; reflexivity).
  split; [exact H|].
  exact (proj1 (validate_transaction_reference_valid _ _ _ H)).
Defined.

(** * Properties of the verification handler *)


